(** * Custom-AI-Blockchain: ledger core, chain store and reconciliation

    A shallow embedding of the Go package [blockchain_logic]
    (block.go, blockchain.go, ipfs_handler.go, network.go, common.go) and the
    properties of its block ledger, chain store and message handler.

    Conventions of the embedding.
    - Go [int64] and [int] values are integers in [Z]; the only arithmetic
      the package performs on them is [b.Nonce++], whose two's-complement
      wrap-around is written out in [int64_wrap].
    - Go strings are byte strings: [string] of [Ascii.ascii].
    - [float64] is an IEEE-754 value, [SpecFloat.spec_float].
    - A [*Block] is modelled by the [Block] it points to; nil block
      pointers are outside the model.
    - A Go [error] is its message; [nil] is [None].
    - A Go panic is the outcome [Panicked].
    - The library functions the package calls but does not define
      ([json.Marshal], [json.Unmarshal], [sha256.Sum256], the IPFS shell)
      are the members of the class [Library].  The IPFS node is an
      external stateful service: its calls thread a state of an arbitrary
      type [World]. *)

From Stdlib Require Import ZArith Lia Bool Ascii String List.
From Stdlib Require Import Floats.SpecFloat.
From stdpp Require Import base option list strings pretty gmap fin_maps.

Local Open Scope string_scope.
Local Open Scope Z_scope.

(** ** Go values *)

Definition float64 : Type := spec_float.
Definition error : Type := string.

(** The pair [(value, err)] a Go function returns. *)
Inductive GoResult (A : Type) : Type :=
| Ok (a : A)
| Err (e : error).
Arguments Ok {A} a.
Arguments Err {A} e.

(** [int64] arithmetic wraps around modulo 2^64. *)
Definition int64_wrap (n : Z) : Z :=
  (n + 2 ^ 63) mod 2 ^ 64 - 2 ^ 63.

(** ** strings and encoding/hex *)

(** [strings.Repeat(s, count)]: panics ([None]) when [count] is negative.
    The run-time failure to allocate a result beyond the memory limit (a
    count near [math.MaxInt64]) is not modelled: [Some] stands for the
    result of a call whose string fits in memory. *)
Fixpoint repeat_string (s : string) (n : nat) : string :=
  match n with
  | O => ""
  | S n' => s ++ repeat_string s n'
  end.

Definition strings_Repeat (s : string) (count : Z) : option string :=
  if (count <? 0)%Z then None else Some (repeat_string s (Z.to_nat count)).

(** [strings.HasPrefix(s, prefix)]. *)
Definition strings_HasPrefix (s prefix : string) : bool :=
  String.prefix prefix s.

Definition hextable : string := "0123456789abcdef".

Definition hexdigit (n : N) : ascii :=
  match String.get (N.to_nat n) hextable with
  | Some c => c
  | None => "0"%char
  end.

(** [hex.EncodeToString]: two lower-case digits per byte, high nibble
    first. *)
Fixpoint hex_EncodeToString (src : list Byte.byte) : string :=
  match src with
  | [] => ""
  | b :: rest =>
      let v := Byte.to_N b in
      String (hexdigit (N.shiftr v 4))
        (String (hexdigit (N.land v 15)) (hex_EncodeToString rest))
  end.

(** ** Data model (common.go, block.go) *)

Record Transaction : Type := {
  Sender : string;
  Receiver : string;
  Amount : float64;
  TxTimestamp : Z
}.

Record Block : Type := {
  Index : Z;
  Timestamp : Z;
  Transactions : list Transaction;
  PrevHash : string;
  Hash : string;
  Nonce : Z;
  Difficulty : Z
}.

Definition set_Hash (b : Block) (h : string) : Block :=
  {| Index := Index b; Timestamp := Timestamp b;
     Transactions := Transactions b; PrevHash := PrevHash b;
     Hash := h; Nonce := Nonce b; Difficulty := Difficulty b |}.

Definition set_Nonce (b : Block) (n : Z) : Block :=
  {| Index := Index b; Timestamp := Timestamp b;
     Transactions := Transactions b; PrevHash := PrevHash b;
     Hash := Hash b; Nonce := n; Difficulty := Difficulty b |}.

(** The anonymous struct [CalculateHash] serialises: every field of the
    block except [Hash] and [Difficulty]. *)
Record HashPayload : Type := {
  hpIndex : Z;
  hpTimestamp : Z;
  hpTransactions : list Transaction;
  hpPrevHash : string;
  hpNonce : Z
}.

(** Result of running the mining loop for a bounded number of rounds. *)
Inductive MineResult : Type :=
| Mined (b : Block) (rounds : nat)
| MinePanicked
| StillMining.

(** ** Ledger core (block.go) *)

(** ** The library functions the package calls

    [json.Marshal] on the hash payload of [CalculateHash] and on a
    [*Block], [json.Unmarshal] into a [[]*Block], [sha256.Sum256], and the
    IPFS node: [shell.Add], [shell.Cat] followed by [io.ReadAll] (outer
    result: [Cat]; inner result: [ReadAll]) and [shell.Pin]. *)
Class Library : Type := {
  World : Type;
  json_Marshal_payload : HashPayload -> GoResult (list Byte.byte);
  sha256_Sum256 : list Byte.byte -> list Byte.byte;
  json_Marshal_Block : Block -> GoResult (list Byte.byte);
  json_Unmarshal_Blocks : list Byte.byte -> GoResult (list Block);
  shell_Add : list Byte.byte -> World -> GoResult string * World;
  shell_Cat : string -> World -> GoResult (GoResult (list Byte.byte)) * World;
  shell_Pin : string -> World -> option error * World
}.

Section LedgerCore.

Context {lib : Library}.

(** [CalculateHash]: the marshalling error is discarded
    ([data, _ := json.Marshal(...)]), so a failed marshal hashes the
    nil slice. *)
Definition CalculateHash (b : Block) : string :=
  let data :=
    match json_Marshal_payload
            {| hpIndex := Index b; hpTimestamp := Timestamp b;
               hpTransactions := Transactions b;
               hpPrevHash := PrevHash b; hpNonce := Nonce b |} with
    | Ok d => d
    | Err _ => []
    end in
  hex_EncodeToString (sha256_Sum256 data).

(** One round of the [for] loop of [Mine] per unit of fuel: store the
    hash, return if it has the target prefix, else [b.Nonce++]. *)
Fixpoint Mine_loop (fuel : nat) (target : string) (b : Block)
  : option (Block * nat) :=
  match fuel with
  | O => None
  | S fuel' =>
      let b1 := set_Hash b (CalculateHash b) in
      if strings_HasPrefix (Hash b1) target then Some (b1, 1%nat)
      else
        match Mine_loop fuel' target
                (set_Nonce b1 (int64_wrap (Nonce b1 + 1))) with
        | Some (b', k) => Some (b', S k)
        | None => None
        end
  end.

Definition Mine (fuel : nat) (b : Block) : MineResult :=
  match strings_Repeat "0" (Difficulty b) with
  | None => MinePanicked
  | Some target =>
      match Mine_loop fuel target b with
      | Some (b', k) => Mined b' k
      | None => StillMining
      end
  end.

(** [CreateBlock]; [now] is the value of [time.Now().Unix()]. *)
Definition CreateBlock (fuel : nat) (now : Z) (index : Z)
    (transactions : list Transaction) (prevHash : string)
    (difficulty : Z) : MineResult :=
  Mine fuel {| Index := index; Timestamp := now;
               Transactions := transactions; PrevHash := prevHash;
               Hash := ""; Nonce := 0; Difficulty := difficulty |}.

(** [ValidateBlock]: [None] is the panic of [strings.Repeat] on a
    negative difficulty, reached only once the hashes agree. *)
Definition ValidateBlock (b : Block) : option bool :=
  let calculatedHash := CalculateHash b in
  if negb (String.eqb calculatedHash (Hash b)) then Some false
  else
    match strings_Repeat "0" (Difficulty b) with
    | None => None
    | Some target => Some (strings_HasPrefix (Hash b) target)
    end.

End LedgerCore.

(** ** Chain store (blockchain.go) and backup bridge (ipfs_handler.go) *)

(** [Blockchain]: the fields the ledger logic reads.  [mutex] is dropped
    (calls are modelled one at a time), [MLValidator] belongs to the
    transaction scorer, and [ipfsHandler] is the non-nil handler that
    [NewBlockchain] installs, represented by the IPFS parameters below. *)
Record Blockchain : Type := {
  Blocks : list Block;
  ChainDifficulty : Z
}.

Definition set_Blocks (bc : Blockchain) (blocks : list Block) : Blockchain :=
  {| Blocks := blocks; ChainDifficulty := ChainDifficulty bc |}.

(** Outcome of a call that talks to the IPFS node: it returns a value and
    leaves the node in a new state, or it panics. *)
Inductive Outcome (W A : Type) : Type :=
| Done (a : A) (w : W)
| Panicked.
Arguments Done {W A} a w.
Arguments Panicked {W A}.

(** What the validation loop shared by [IsValid] and [RestoreFromIPFS]
    finds: the index of the first offending block, if any. *)
Inductive ChainVerdict : Type :=
| ChainOk
| HashMismatchAt (i : nat)
| InvalidProofAt (i : nat)
| ChainPanic.

Section ChainStore.

Context {lib : Library}.

(** [IPFSHandler.StoreBlock]. *)
Definition StoreBlock (block : Block) (w : World)
  : GoResult string * World :=
  match json_Marshal_Block block with
  | Err e => (Err ("failed to marshal block: " ++ e), w)
  | Ok blockData =>
      match shell_Add blockData w with
      | (Err e, w1) => (Err ("failed to add block to IPFS: " ++ e), w1)
      | (Ok hash, w1) => (Ok hash, w1)
      end
  end.

(** [IPFSHandler.RetrieveBlockchain]. *)
Definition RetrieveBlockchain (hash : string) (w : World)
  : GoResult (list Block) * World :=
  match shell_Cat hash w with
  | (Err e, w1) =>
      (Err ("failed to retrieve blockchain from IPFS: " ++ e), w1)
  | (Ok (Err e), w1) =>
      (Err ("failed to read blockchain data: " ++ e), w1)
  | (Ok (Ok data), w1) =>
      match json_Unmarshal_Blocks data with
      | Err e => (Err ("failed to unmarshal blockchain: " ++ e), w1)
      | Ok blocks => (Ok blocks, w1)
      end
  end.

(** The checks [AddBlock] runs when the chain is not empty. *)
Definition AddBlock_checks (bc : Blockchain) (block : Block)
  : option (option error) :=
  match last (Blocks bc) with
  | None => Some None
  | Some previousBlock =>
      if negb (String.eqb (PrevHash block) (Hash previousBlock))
      then Some (Some "invalid previous hash")
      else
        match ValidateBlock block with
        | None => None
        | Some false => Some (Some "invalid block proof of work")
        | Some true => Some None
        end
  end.

(** [Blockchain.AddBlock]: returns the chain after the call and the
    error. *)
Definition AddBlock (bc : Blockchain) (block : Block) (w : World)
  : Outcome World (Blockchain * option error) :=
  match AddBlock_checks bc block with
  | None => Panicked
  | Some (Some e) => Done (bc, Some e) w
  | Some None =>
      match StoreBlock block w with
      | (Err e, w1) =>
          Done (bc, Some ("failed to store block in IPFS: " ++ e)) w1
      | (Ok ipfsHash, w1) =>
          match shell_Pin ipfsHash w1 with
          | (Some e, w2) =>
              Done (bc, Some ("failed to pin block in IPFS: " ++ e)) w2
          | (None, w2) =>
              Done (set_Blocks bc (Blocks bc ++ [block]), None) w2
          end
      end
  end.

(** [Blockchain.GetLatestBlock]. *)
Definition GetLatestBlock (bc : Blockchain) : option Block :=
  last (Blocks bc).

(** The loop [for i := 1; i < len(blocks); i++] of [IsValid] and of
    [RestoreFromIPFS], started at index [i] with [previousBlock] the
    block at [i-1] and [rest] the blocks from [i] on. *)
Fixpoint checkBlocksFrom (i : nat) (previousBlock : Block)
    (rest : list Block) : ChainVerdict :=
  match rest with
  | [] => ChainOk
  | currentBlock :: rest' =>
      if negb (String.eqb (PrevHash currentBlock) (Hash previousBlock))
      then HashMismatchAt i
      else
        match ValidateBlock currentBlock with
        | None => ChainPanic
        | Some false => InvalidProofAt i
        | Some true => checkBlocksFrom (S i) currentBlock rest'
        end
  end.

Definition checkBlocks (blocks : list Block) : ChainVerdict :=
  match blocks with
  | [] => ChainOk
  | first :: rest => checkBlocksFrom 1 first rest
  end.

(** [Blockchain.IsValid]; [None] when a block validation panics. *)
Definition IsValid (bc : Blockchain) : option bool :=
  match checkBlocks (Blocks bc) with
  | ChainOk => Some true
  | HashMismatchAt _ | InvalidProofAt _ => Some false
  | ChainPanic => None
  end.

(** [Blockchain.RestoreFromIPFS]. *)
Definition RestoreFromIPFS (bc : Blockchain) (hash : string) (w : World)
  : Outcome World (Blockchain * option error) :=
  match RetrieveBlockchain hash w with
  | (Err e, w1) =>
      Done (bc, Some ("failed to restore blockchain from IPFS: " ++ e)) w1
  | (Ok blocks, w1) =>
      match checkBlocks blocks with
      | ChainPanic => Panicked
      | HashMismatchAt i =>
          Done (bc, Some ("invalid blockchain data: hash mismatch at block "
                          ++ pretty i)) w1
      | InvalidProofAt i =>
          Done (bc, Some
                 ("invalid blockchain data: invalid proof of work at block "
                  ++ pretty i)) w1
      | ChainOk => Done (set_Blocks bc blocks, None) w1
      end
  end.

End ChainStore.

(** ** Gossip transport and reconciliation (network.go) *)

Definition MessageTypeNewBlock : string := "NEW_BLOCK".
Definition MessageTypeNewTx : string := "NEW_TRANSACTION".
Definition MessageTypeBlockchain : string := "BLOCKCHAIN_REQUEST".
Definition MessageTypeBlockchainResponse : string := "BLOCKCHAIN_RESPONSE".
Definition MessageTypeIPFSBackup : string := "IPFS_BACKUP".

(** A JSON value as it travels on a connection; a number is kept as its
    literal. *)
#[warnings="-register-all"] Inductive JSONValue : Type :=
| JNull
| JBool (b : bool)
| JNumber (literal : string)
| JString (s : string)
| JArray (elements : list JSONValue)
| JObject (members : list (string * JSONValue)).

(** The dynamic value held by the [interface{}] field [Content].  The
    package itself stores a [*Block], a [*Transaction], a [*Blockchain] or
    a [string] there.  [DGeneric v] is one of the other values
    [encoding/json] stores in an [interface{}]: nil, [bool], [float64],
    [[]interface{}] or [map[string]interface{}], decoded from [v]. *)
Inductive Dynamic : Type :=
| DBlockPtr (block : Block)
| DTransactionPtr (tx : Transaction)
| DBlockchainPtr (blockchain : Blockchain)
| DString (s : string)
| DGeneric (v : JSONValue).

Record BlockchainMessage : Type := {
  MsgType : string;
  Content : Dynamic;
  From : string;
  To : string
}.

(** [net.Conn] values are told apart by a connection number. *)
Record PeerConnection : Type := {
  Address : string;
  Conn : nat
}.

Record PeerNetwork : Type := {
  MyAddress : string;
  Peers : gmap string PeerConnection;
  isConnected : gmap string bool;
  blockchain : option Blockchain
}.

Definition set_blockchain (pn : PeerNetwork) (bc : option Blockchain)
  : PeerNetwork :=
  {| MyAddress := MyAddress pn; Peers := Peers pn;
     isConnected := isConnected pn; blockchain := bc |}.

(** One [json.NewEncoder(conn).Encode(content)] call. *)
Definition Send : Type := (nat * BlockchainMessage)%type.

(** A message as the JSON object read from a connection. *)
Record WireMessage : Type := {
  wireType : string;
  wireContent : JSONValue;
  wireFrom : string;
  wireTo : string
}.

(** What [encoding/json] stores in the empty [interface{}] field
    [Content]: a Go [string] for a JSON string, a generic value for
    everything else; never a pointer to a struct of the package. *)
Definition decode_interface (v : JSONValue) : Dynamic :=
  match v with
  | JString s => DString s
  | _ => DGeneric v
  end.

(** [decoder.Decode(&message)] into a fresh [BlockchainMessage]. *)
Definition Decode (m : WireMessage) : BlockchainMessage :=
  {| MsgType := wireType m; Content := decode_interface (wireContent m);
     From := wireFrom m; To := wireTo m |}.

(** [BroadcastMessage]: one send per entry of [pn.Peers]; the sends run
    in goroutines of their own, so their order carries no meaning. *)
Definition BroadcastMessage (pn : PeerNetwork) (content : BlockchainMessage)
  : list Send :=
  (fun entry : string * PeerConnection => (Conn (snd entry), content))
    <$> map_to_list (Peers pn).

Definition BroadcastNewBlock (pn : PeerNetwork) (block : Block) : list Send :=
  BroadcastMessage pn
    {| MsgType := MessageTypeNewBlock; Content := DBlockPtr block;
       From := MyAddress pn; To := "" |}.

Definition BroadcastTransaction (pn : PeerNetwork) (tx : Transaction)
  : list Send :=
  BroadcastMessage pn
    {| MsgType := MessageTypeNewTx; Content := DTransactionPtr tx;
       From := MyAddress pn; To := "" |}.

Definition BroadcastIPFSBackup (pn : PeerNetwork) (hash : string)
  : list Send :=
  BroadcastMessage pn
    {| MsgType := MessageTypeIPFSBackup; Content := DString hash;
       From := MyAddress pn; To := "" |}.

Section Reconciliation.

Context {lib : Library}.

(** [handleMessage]: the network after the call and the messages it
    sends; [conn] is the connection the message came from. *)
Definition handleMessage (pn : PeerNetwork) (message : BlockchainMessage)
    (conn : nat) (w : World) : Outcome World (PeerNetwork * list Send) :=
  if String.eqb (MsgType message) MessageTypeNewBlock then
    match Content message with
    | DBlockPtr block =>
        match blockchain pn with
        | None => Done (pn, []) w
        | Some bc =>
            match AddBlock bc block w with
            | Panicked => Panicked
            | Done (bc', Some _) w' =>
                Done (set_blockchain pn (Some bc'), []) w'
            | Done (bc', None) w' =>
                let pn' := set_blockchain pn (Some bc') in
                Done (pn', BroadcastNewBlock pn' block) w'
            end
        end
    | _ => Done (pn, []) w
    end
  else if String.eqb (MsgType message) MessageTypeNewTx then
    match Content message with
    | DTransactionPtr tx => Done (pn, BroadcastTransaction pn tx) w
    | _ => Done (pn, []) w
    end
  else if String.eqb (MsgType message) MessageTypeBlockchain then
    match blockchain pn with
    | None => Done (pn, []) w
    | Some bc =>
        Done (pn, [(conn,
                    {| MsgType := MessageTypeBlockchainResponse;
                       Content := DBlockchainPtr bc;
                       From := MyAddress pn; To := From message |})]) w
    end
  else if String.eqb (MsgType message) MessageTypeBlockchainResponse then
    match Content message with
    | DBlockchainPtr remote =>
        let longer :=
          match blockchain pn with
          | None => true
          | Some bc =>
              (length (Blocks bc) <? length (Blocks remote))%nat
          end in
        if longer then
          match IsValid remote with
          | None => Panicked
          | Some true => Done (set_blockchain pn (Some remote), []) w
          | Some false => Done (pn, []) w
          end
        else Done (pn, []) w
    | _ => Done (pn, []) w
    end
  else if String.eqb (MsgType message) MessageTypeIPFSBackup then
    match Content message with
    | DString hash =>
        match blockchain pn with
        | None => Done (pn, []) w
        | Some bc =>
            match RetrieveBlockchain hash w with
            | (Err _, w1) => Done (pn, []) w1
            | (Ok tempBlocks, w1) =>
                if (length (Blocks bc) <? length tempBlocks)%nat then
                  match RestoreFromIPFS bc hash w1 with
                  | Panicked => Panicked
                  | Done (bc', _) w2 =>
                      Done (set_blockchain pn (Some bc'), []) w2
                  end
                else Done (pn, []) w1
            end
        end
    | _ => Done (pn, []) w
    end
  else Done (pn, []) w.

(** One turn of the read loop of [handleMessages]: a message decoded
    from the connection is handed to [handleMessage]. *)
Definition receive (pn : PeerNetwork) (m : WireMessage) (conn : nat)
    (w : World) : Outcome World (PeerNetwork * list Send) :=
  handleMessage pn (Decode m) conn w.

End Reconciliation.

(** ** JSON form of the structs (struct tags of block.go and common.go)

    [strconv_FormatFloat] is the literal [encoding/json] writes for a
    [float64]. *)
Definition JSON_of_Transaction (strconv_FormatFloat : float64 -> string)
    (tx : Transaction) : JSONValue :=
  JObject [("sender", JString (Sender tx));
           ("receiver", JString (Receiver tx));
           ("amount", JNumber (strconv_FormatFloat (Amount tx)));
           ("timestamp", JNumber (pretty (TxTimestamp tx)))].

Definition JSON_of_Block (strconv_FormatFloat : float64 -> string)
    (b : Block) : JSONValue :=
  JObject [("index", JNumber (pretty (Index b)));
           ("timestamp", JNumber (pretty (Timestamp b)));
           ("transactions",
            JArray (JSON_of_Transaction strconv_FormatFloat
                      <$> Transactions b));
           ("prev_hash", JString (PrevHash b));
           ("hash", JString (Hash b));
           ("nonce", JNumber (pretty (Nonce b)));
           ("difficulty", JNumber (pretty (Difficulty b)))].

(** The exported fields of [Blockchain]; [MLValidator] has no exported
    field and is written as the empty object. *)
Definition JSON_of_Blockchain (strconv_FormatFloat : float64 -> string)
    (bc : Blockchain) : JSONValue :=
  JObject [("Blocks",
            JArray (JSON_of_Block strconv_FormatFloat <$> Blocks bc));
           ("Difficulty", JNumber (pretty (ChainDifficulty bc)));
           ("MLValidator", JObject [])].

(** ** Vocabulary of the specification *)

(** Number of leading ['0'] characters of a hash. *)
Fixpoint leadingZeros (s : string) : nat :=
  match s with
  | String c rest => if Ascii.eqb c "0" then S (leadingZeros rest) else O
  | EmptyString => O
  end.

(** The nonce after [k] executions of [b.Nonce++]. *)
Fixpoint nonce_after (n : Z) (k : nat) : Z :=
  match k with
  | O => n
  | S k' => nonce_after (int64_wrap (n + 1)) k'
  end.

(** The block the mining loop hashes in its round [k] (counted from 0). *)
Definition attempt (b : Block) (k : nat) : Block :=
  set_Nonce b (nonce_after (Nonce b) k).

(** Genesis well-formedness of the data model. *)
Definition genesis_well_formed (g : Block) : Prop :=
  Index g = 0 /\ Transactions g = [] /\ PrevHash g = "".

Section SpecVocabulary.

Context {lib : Library}.

(** The block [Mine] returns when round [k] is the first to meet the
    target. *)
Definition mined (b : Block) (k : nat) : Block :=
  set_Hash (attempt b k) (CalculateHash (attempt b k)).

(** The two block invariants of the data model, relative to the
    predecessor [prev]: stored hash is the recomputed hash and meets the
    difficulty, and the block links to [prev]. *)
Definition block_invariants (prev cur : Block) : Prop :=
  CalculateHash cur = Hash cur /\
  0 <= Difficulty cur <= Z.of_nat (leadingZeros (Hash cur)) /\
  PrevHash cur = Hash prev.

(** Every block after the first satisfies [block_invariants] relative to
    the block before it. *)
Definition links_valid (blocks : list Block) : Prop :=
  forall (i : nat) (prev cur : Block),
    blocks !! i = Some prev -> blocks !! S i = Some cur ->
    block_invariants prev cur.

(** The chain invariant as the data model states it. *)
Definition chain_invariant (blocks : list Block) : Prop :=
  match blocks with
  | [] => False
  | g :: _ => genesis_well_formed g /\ links_valid blocks
  end.

(** [block] passes the checks [AddBlock] makes before it stores the
    block: the chain is empty, or the block links to the latest block and
    validates. *)
Definition acceptable (bc : Blockchain) (block : Block) : Prop :=
  Blocks bc = [] \/
  exists previousBlock : Block,
    last (Blocks bc) = Some previousBlock /\
    PrevHash block = Hash previousBlock /\
    ValidateBlock block = Some true.

(** Chains obtained from the empty chain by successful [AddBlock] calls. *)
Inductive produced : Blockchain -> Prop :=
| produced_empty (difficulty : Z) :
    produced {| Blocks := []; ChainDifficulty := difficulty |}
| produced_append (bc bc' : Blockchain) (block : Block) (w w' : World) :
    produced bc ->
    AddBlock bc block w = Done (bc', None) w' ->
    produced bc'.


End SpecVocabulary.

(** ** A concrete library for running the definitions

    The theorems below hold for every [Library].  To evaluate the
    embedding on concrete blocks, [fixture] supplies small stand-ins: a
    one-byte rolling digest padded to 32 bytes, a flat byte encoding of
    the hash payload, and an IPFS node that is either reachable ([true])
    or not ([false]) and stores one chain under ["QmChain"]. *)

Definition byte_of_Z (z : Z) : Byte.byte :=
  match Byte.of_N (Z.to_N (z mod 256)) with
  | Some b => b
  | None => Byte.x00
  end.

Definition fixture_digest (data : list Byte.byte) : list Byte.byte :=
  let acc :=
    fold_left (fun acc b => (acc * 31 + Z.of_N (Byte.to_N b) + 7) mod 256)
      data 0 in
  (fun i : nat => byte_of_Z (acc * (2 * Z.of_nat i + 1) + 5 * Z.of_nat i))
    <$> seq 0 32.

Definition fixture_payload (p : HashPayload) : GoResult (list Byte.byte) :=
  Ok (list_byte_of_string (hpPrevHash p)
        ++ [byte_of_Z (hpIndex p); byte_of_Z (hpTimestamp p);
            byte_of_Z (Z.of_nat (length (hpTransactions p)));
            byte_of_Z (hpNonce p)])%list.

Definition fixture_transfer : Transaction :=
  {| Sender := "Alice"; Receiver := "Bob";
     Amount := S754_finite false 8796093022208000 (-44);
     TxTimestamp := 0 |}.

Definition fixture_genesis : Block :=
  {| Index := 0; Timestamp := 1700000000; Transactions := [];
     PrevHash := "";
     Hash :=
       "00050a0f14191e23282d32373c41464b50555a5f64696e73787d82878c91969b";
     Nonce := 64; Difficulty := 1 |}.

Definition fixture_block1 : Block :=
  {| Index := 1; Timestamp := 1700000075;
     Transactions := [fixture_transfer];
     PrevHash :=
       "00050a0f14191e23282d32373c41464b50555a5f64696e73787d82878c91969b";
     Hash :=
       "01080f161d242b323940474e555c636a71787f868d949ba2a9b0b7bec5ccd3da";
     Nonce := 0; Difficulty := 1 |}.

(** [fixture_block1] with its transaction removed and the hash kept. *)
Definition fixture_tampered : Block :=
  {| Index := 1; Timestamp := 1700000075; Transactions := [];
     PrevHash := PrevHash fixture_block1; Hash := Hash fixture_block1;
     Nonce := 0; Difficulty := 1 |}.

(** A first block that is not a genesis block of the data model. *)
Definition fixture_odd_first : Block :=
  {| Index := 5; Timestamp := 1700000000;
     Transactions := [fixture_transfer]; PrevHash := "ff";
     Hash := "not a hash"; Nonce := 0; Difficulty := 4 |}.

Definition fixture_Cat (hash : string) (w : bool)
  : GoResult (GoResult (list Byte.byte)) * bool :=
  if w then
    if String.eqb hash "QmChain" then (Ok (Ok [Byte.x01]), w)
    else if String.eqb hash "QmTampered" then (Ok (Ok [Byte.x02]), w)
    else (Err "no such object", w)
  else (Err "node unreachable", w).

Definition fixture_Unmarshal (data : list Byte.byte)
  : GoResult (list Block) :=
  match data with
  | [Byte.x01] => Ok [fixture_genesis; fixture_block1]
  | [Byte.x02] => Ok [fixture_genesis; fixture_tampered]
  | _ => Err "invalid character"
  end.

Definition fixture : Library :=
  {| World := bool;
     json_Marshal_payload := fixture_payload;
     sha256_Sum256 := fixture_digest;
     json_Marshal_Block := fun b => Ok [byte_of_Z (Index b)];
     json_Unmarshal_Blocks := fixture_Unmarshal;
     shell_Add := fun _ w =>
       if w then (Ok "QmBlock", w) else (Err "node unreachable", w);
     shell_Cat := fixture_Cat;
     shell_Pin := fun _ w =>
       if w then (None, w) else (Some "node unreachable", w) |}.

Definition fixture_local : Blockchain :=
  {| Blocks := [fixture_genesis]; ChainDifficulty := 1 |}.

Definition fixture_remote : Blockchain :=
  {| Blocks := [fixture_genesis; fixture_block1]; ChainDifficulty := 1 |}.

Definition fixture_peer : PeerConnection :=
  {| Address := "localhost:9002"; Conn := 2%nat |}.

Definition fixture_network : PeerNetwork :=
  {| MyAddress := "localhost:9001";
     Peers := {[ "localhost:9002" := fixture_peer ]};
     isConnected := {[ "localhost:9002" := true ]};
     blockchain := Some fixture_local |}.

(** The literal of the one amount that occurs in the fixtures. *)
Definition fixture_FormatFloat (f : float64) : string := "500".

(** Messages as peer [localhost:9002] writes them on the connection. *)
Definition fixture_new_block_message : WireMessage :=
  {| wireType := "NEW_BLOCK";
     wireContent := JSON_of_Block fixture_FormatFloat fixture_block1;
     wireFrom := "localhost:9002"; wireTo := "" |}.

Definition fixture_chain_response : WireMessage :=
  {| wireType := "BLOCKCHAIN_RESPONSE";
     wireContent := JSON_of_Blockchain fixture_FormatFloat fixture_remote;
     wireFrom := "localhost:9002"; wireTo := "localhost:9001" |}.

Definition fixture_backup_message (hash : string) : WireMessage :=
  {| wireType := "IPFS_BACKUP"; wireContent := JString hash;
     wireFrom := "localhost:9002"; wireTo := "" |}.

(** ** The rest of the package

    The operations of block.go, blockchain.go, ipfs_handler.go, network.go
    and common.go that the chain logic above does not call. *)

Definition set_Difficulty (b : Block) (d : Z) : Block :=
  {| Index := Index b; Timestamp := Timestamp b;
     Transactions := Transactions b; PrevHash := PrevHash b;
     Hash := Hash b; Nonce := Nonce b; Difficulty := d |}.

Definition set_Transactions (b : Block) (txs : list Transaction) : Block :=
  {| Index := Index b; Timestamp := Timestamp b;
     Transactions := txs; PrevHash := PrevHash b;
     Hash := Hash b; Nonce := Nonce b; Difficulty := Difficulty b |}.

(** What [NewBlockchain] has done after [fuel] rounds of mining the
    genesis block. *)
Inductive NewBlockchainResult (W : Type) : Type :=
| Built (r : GoResult Blockchain) (w : W)
| BuildPanicked
| BuildStillMining.
Arguments Built {W} r w.
Arguments BuildPanicked {W}.
Arguments BuildStillMining {W}.

Section ChainStoreRest.

Context {lib : Library}.

(** [json.Marshal] of a [[]*Block], [MLTransactionValidator.Train] (its
    error, if any, for a training file), [shell.ID] as [NewIPFSHandler]
    calls it, and the verdict of [MLTransactionValidator.ValidateTransaction]
    (accepted, confidence, reason). *)
Variable json_Marshal_Blocks : list Block -> GoResult (list Byte.byte).
Variable Train : string -> option error.
Variable shell_ID : World -> option error * World.
Variable ValidateTransaction : Transaction -> bool * float64 * string.

(** [IPFSHandler.StoreBlockchain]. *)
Definition StoreBlockchain (bc : Blockchain) (w : World)
  : GoResult string * World :=
  match json_Marshal_Blocks (Blocks bc) with
  | Err e => (Err ("failed to marshal blockchain: " ++ e), w)
  | Ok blockchainData =>
      match shell_Add blockchainData w with
      | (Err e, w1) =>
          (Err ("failed to add blockchain to IPFS: " ++ e), w1)
      | (Ok hash, w1) => (Ok hash, w1)
      end
  end.

(** [Blockchain.BackupToIPFS]. *)
Definition BackupToIPFS (bc : Blockchain) (w : World)
  : GoResult string * World :=
  match StoreBlockchain bc w with
  | (Err e, w1) =>
      (Err ("failed to backup blockchain to IPFS: " ++ e), w1)
  | (Ok hash, w1) =>
      match shell_Pin hash w1 with
      | (Some e, w2) =>
          (Err ("failed to pin blockchain backup: " ++ e), w2)
      | (None, w2) => (Ok hash, w2)
      end
  end.

(** [NewIPFSHandler]: the connection test; the handler itself is the
    [Library]. *)
Definition NewIPFSHandler (w : World) : option error * World :=
  match shell_ID w with
  | (Some e, w1) => (Some ("failed to connect to IPFS node: " ++ e), w1)
  | (None, w1) => (None, w1)
  end.

(** [NewBlockchain]: the result of [AddBlock] on the genesis block is
    discarded. *)
Definition NewBlockchain (fuel : nat) (now : Z) (difficulty : Z)
    (trainingFile : string) (w : World) : NewBlockchainResult World :=
  match Train trainingFile with
  | Some e => Built (Err ("failed to initialize ML validator: " ++ e)) w
  | None =>
      match NewIPFSHandler w with
      | (Some e, w1) =>
          Built (Err ("failed to initialize IPFS handler: " ++ e)) w1
      | (None, w1) =>
          let blockchain :=
            {| Blocks := []; ChainDifficulty := difficulty |} in
          match CreateBlock fuel now 0 [] "" difficulty with
          | MinePanicked => BuildPanicked
          | StillMining => BuildStillMining
          | Mined genesisBlock _ =>
              match AddBlock blockchain genesisBlock w1 with
              | Panicked => BuildPanicked
              | Done (blockchain', _) w2 => Built (Ok blockchain') w2
              end
          end
      end
  end.


End ChainStoreRest.

(** ** Peer set (network.go) *)

Definition set_Peers (pn : PeerNetwork) (peers : gmap string PeerConnection)
    (connected : gmap string bool) : PeerNetwork :=
  {| MyAddress := MyAddress pn; Peers := peers;
     isConnected := connected; blockchain := blockchain pn |}.

(** [NewPeerNetwork]. *)
Definition NewPeerNetwork (myAddress : string) : PeerNetwork :=
  {| MyAddress := myAddress; Peers := ∅; isConnected := ∅;
     blockchain := None |}.

(** [SetBlockchain]. *)
Definition SetBlockchain (pn : PeerNetwork) (bc : Blockchain) : PeerNetwork :=
  set_blockchain pn (Some bc).

(** [handleConnection]: the registration of an accepted connection
    ([remoteAddr] is [conn.RemoteAddr().String()]). *)
Definition handleConnection (pn : PeerNetwork) (remoteAddr : string)
    (conn : nat) : PeerNetwork :=
  match Peers pn !! remoteAddr with
  | Some _ => pn
  | None =>
      set_Peers pn
        (<[remoteAddr := {| Address := remoteAddr; Conn := conn |}]>
           (Peers pn))
        (<[remoteAddr := true]> (isConnected pn))
  end.

(** The deferred function of [handleMessages], run when the read loop of
    the connection with remote address [addr] ends. *)
Definition closeConnection (pn : PeerNetwork) (addr : string) : PeerNetwork :=
  set_Peers pn (delete addr (Peers pn)) (<[addr := false]> (isConnected pn)).

(** [GetConnectedPeers]: the keys of [Peers], in map order. *)
Definition GetConnectedPeers (pn : PeerNetwork) : list string :=
  fst <$> map_to_list (Peers pn).

(** [IsConnected]: a missing key reads as [false]. *)
Definition IsConnected (pn : PeerNetwork) (peerAddr : string) : bool :=
  default false (isConnected pn !! peerAddr).

(** [SendToPeer]: the error for an unknown peer, or the [Encode] call whose
    result it returns. *)
Definition SendToPeer (pn : PeerNetwork) (peerAddr : string)
    (content : BlockchainMessage) : GoResult Send :=
  match Peers pn !! peerAddr with
  | None => Err ("peer " ++ peerAddr ++ " not connected")
  | Some peer => Ok (Conn peer, content)
  end.

(** The addresses [ConnectToPeersWithRetry] starts a dialling goroutine
    for. *)
Definition dialTargets (pn : PeerNetwork) (peerAddresses : list string)
  : list string :=
  filter (fun addr => addr <> MyAddress pn) peerAddresses.

(** Where the dialling goroutine of one address stands. *)
Inductive DialResult : Type :=
| DialConnected (pn : PeerNetwork) (attempts : nat)
| DialGaveUp (attempts : nat)
| DialWaiting (attempts : nat).

(** The goroutine [ConnectToPeersWithRetry] starts for [address], run
    against the results of its successive [net.Dial] calls; [attempts]
    counts the calls made so far.  While [isConnected[address]] is set the
    loop sleeps without dialling. *)
Fixpoint connectLoop (pn : PeerNetwork) (address : string)
    (maxRetries retryCount : Z) (dials : list (GoResult nat))
    (attempts : nat) : DialResult :=
  if default false (isConnected pn !! address) then DialWaiting attempts
  else
    match dials with
    | [] => DialWaiting attempts
    | Err _ :: dials' =>
        let retryCount := int64_wrap (retryCount + 1) in
        if retryCount <=? maxRetries
        then connectLoop pn address maxRetries retryCount dials' (S attempts)
        else DialGaveUp (S attempts)
    | Ok conn :: _ =>
        DialConnected
          (set_Peers pn
             (<[address := {| Address := address; Conn := conn |}]>
                (Peers pn))
             (<[address := true]> (isConnected pn)))
          (S attempts)
    end.

Section ReadLoop.

Context {lib : Library}.

(** [handleMessages] on the successive results of [decoder.Decode]: each
    decoded message is handled; the first error ends the loop and runs the
    deferred [closeConnection].  The last component tells whether the
    connection was closed ([false]: the loop is blocked in [Decode]). *)
Fixpoint handleMessages (pn : PeerNetwork)
    (decoded : list (GoResult WireMessage)) (conn : nat) (addr : string)
    (w : World) : Outcome World (PeerNetwork * list Send * bool) :=
  match decoded with
  | [] => Done (pn, [], false) w
  | Err _ :: _ => Done (closeConnection pn addr, [], true) w
  | Ok m :: decoded' =>
      match receive pn m conn w with
      | Panicked => Panicked
      | Done (pn1, sends1) w1 =>
          match handleMessages pn1 decoded' conn addr w1 with
          | Panicked => Panicked
          | Done (pn2, sends2, closed) w2 =>
              Done (pn2, (sends1 ++ sends2)%list, closed) w2
          end
      end
  end.

End ReadLoop.

(** ** CSV ingestion (common.go) *)

Section CSV.

(** [strconv.ParseFloat(s, 64)]. *)
Variable strconv_ParseFloat : string -> GoResult float64.

(** The loop of [ReadTransactionsFromCSV] over the records read before the
    first [reader.Read] error. *)
Fixpoint readRecords (lineNum : Z) (records : list (list string))
    (transactions : list Transaction) : GoResult (list Transaction) :=
  match records with
  | [] => Ok transactions
  | record :: records' =>
      let lineNum := lineNum + 1 in
      match record with
      | [sender; receiver; amountField] =>
          match strconv_ParseFloat amountField with
          | Err e =>
              Err ("invalid amount at line " ++ pretty lineNum ++ ": " ++ e)
          | Ok amount =>
              readRecords lineNum records'
                (transactions
                   ++ [{| Sender := sender; Receiver := receiver;
                          Amount := amount; TxTimestamp := 0 |}])
          end
      | _ => Err ("invalid record at line " ++ pretty lineNum)
      end
  end.

(** [ReadTransactionsFromCSV] on the result of [os.Open], the result of
    the first [reader.Read] and the records read after it up to the first
    read error, which the code takes for the end of the file. *)
Definition ReadTransactionsFromCSV (opened : option error)
    (header : GoResult (list string)) (records : list (list string))
  : GoResult (list Transaction) :=
  match opened with
  | Some e => Err ("error opening file: " ++ e)
  | None =>
      match header with
      | Err e => Err ("error reading header: " ++ e)
      | Ok [h0; h1; h2] =>
          if negb (String.eqb h0 "Sender")
             || negb (String.eqb h1 "Receiver")
             || negb (String.eqb h2 "Amount")
          then Err "invalid CSV header format"
          else
            match readRecords 1 records [] with
            | Err e => Err e
            | Ok transactions =>
                if (length transactions <? 5)%nat then
                  Err ("insufficient transactions: found "
                       ++ pretty (length transactions)
                       ++ ", minimum required is 5")
                else Ok transactions
            end
      | Ok _ => Err "invalid CSV header format"
      end
  end.

End CSV.

(** [fixture] with a node that serves a one-block backup under every
    content id. *)
Definition fixture_stale : Library :=
  {| World := bool;
     json_Marshal_payload := fixture_payload;
     sha256_Sum256 := fixture_digest;
     json_Marshal_Block := fun b => Ok [byte_of_Z (Index b)];
     json_Unmarshal_Blocks := fun _ => Ok [fixture_odd_first];
     shell_Add := fun _ w => (Ok "QmBlock", w);
     shell_Cat := fun _ w => (Ok (Ok [Byte.x00]), w);
     shell_Pin := fun _ w => (None, w) |}.

(** A scorer that accepts the amounts written with a zero exponent. *)
Definition fixture_scorer (tx : Transaction) : bool * float64 * string :=
  match Amount tx with
  | S754_finite false _ 0 =>
      (true, S754_finite false 1 0, "Transaction appears valid")
  | _ => (false, S754_zero false, "Unusual transaction pattern detected")
  end.

Definition fixture_small_transfer : Transaction :=
  {| Sender := "Bob"; Receiver := "Carol";
     Amount := S754_finite false 300 0; TxTimestamp := 0 |}.

(** Messages as the package builds them, with a typed content. *)
Definition fixture_typed_new_block : BlockchainMessage :=
  {| MsgType := MessageTypeNewBlock; Content := DBlockPtr fixture_block1;
     From := "localhost:9002"; To := "" |}.

Definition fixture_typed_response : BlockchainMessage :=
  {| MsgType := MessageTypeBlockchainResponse;
     Content := DBlockchainPtr fixture_remote;
     From := "localhost:9002"; To := "localhost:9001" |}.

(** The connection flags agree with the peer map: an address is flagged
    as connected exactly when the map has a connection for it. *)
Definition flags_match_peers (pn : PeerNetwork) : Prop :=
  forall addr : string,
    IsConnected pn addr = true <-> is_Some (Peers pn !! addr).

(** The message kinds whose payload [handleMessage] expects as a pointer
    to a struct. *)
Definition struct_payload_kind (m : WireMessage) : Prop :=
  wireType m = MessageTypeNewBlock \/
  wireType m = MessageTypeNewTx \/
  wireType m = MessageTypeBlockchainResponse.

(** [strconv.ParseFloat] on the amounts of the fixtures. *)
Definition fixture_ParseFloat (s : string) : GoResult float64 :=
  if String.eqb s "500" then Ok (Amount fixture_transfer)
  else if String.eqb s "300" then Ok (Amount fixture_small_transfer)
  else Err "strconv.ParseFloat: parsing: invalid syntax".

Definition fixture_records : list (list string) :=
  [["Alice"; "Bob"; "500"]; ["Bob"; "Carol"; "300"];
   ["Carol"; "Dave"; "500"]; ["Dave"; "Erin"; "300"];
   ["Erin"; "Alice"; "500"]].

(** [fixture] with a node that keeps what is added to it: the state is
    the map from content ids to blobs, the id of a blob is derived from
    its digest. *)
Definition fixture_content_id (data : list Byte.byte) : string :=
  "Qm" ++ hex_EncodeToString (fixture_digest data).

Definition fixture_memory : Library :=
  {| World := gmap string (list Byte.byte);
     json_Marshal_payload := fixture_payload;
     sha256_Sum256 := fixture_digest;
     json_Marshal_Block := fun b => Ok [byte_of_Z (Index b)];
     json_Unmarshal_Blocks := fixture_Unmarshal;
     shell_Add := fun data w =>
       (Ok (fixture_content_id data), <[fixture_content_id data := data]> w);
     shell_Cat := fun hash w =>
       match w !! hash with
       | Some data => (Ok (Ok data), w)
       | None => (Err "no such object", w)
       end;
     shell_Pin := fun hash w =>
       match w !! hash with
       | Some _ => (None, w)
       | None => (Some "not found", w)
       end |}.

(** A stand-in for [json.Marshal] of a block list that [fixture_Unmarshal]
    inverts on [fixture_remote]. *)
Definition fixture_Marshal_Blocks (blocks : list Block)
  : GoResult (list Byte.byte) :=
  Ok [byte_of_Z (Z.of_nat (length blocks) - 1)].

(** [fixture_block1] with a negative difficulty; the difficulty is not
    hashed, so the stored hash is still the recomputed one. *)
Definition fixture_negative : Block := set_Difficulty fixture_block1 (-1).



(** * Properties *)

(** ** Strings *)

Lemma repeat_zero_succ (n : nat) :
  repeat_string "0" (S n) = String "0" (repeat_string "0" n).
Proof. reflexivity. Qed.

Lemma prefix_cons (a b : ascii) (s1 s2 : string) :
  String.prefix (String a s1) (String b s2)
  = if ascii_dec a b then String.prefix s1 s2 else false.
Proof. reflexivity. Qed.

(** A hash starts with [n] zeros exactly when it has at least [n] leading
    zeros. *)
Lemma prefix_repeat_zero (n : nat) (s : string) :
  String.prefix (repeat_string "0" n) s = true <-> (n <= leadingZeros s)%nat.
Proof.
  revert s. induction n as [|n IH]; intros s.
  - cbn [repeat_string]. split; [lia | intros _; destruct s; reflexivity].
  - rewrite repeat_zero_succ. destruct s as [|c rest].
    + cbn. split; [discriminate | lia].
    + rewrite prefix_cons. cbn [leadingZeros].
      destruct (ascii_dec "0" c) as [<-|Hne].
      * rewrite Ascii.eqb_refl, IH. lia.
      * destruct (Ascii.eqb c "0") eqn:Hc.
        -- apply Ascii.eqb_eq in Hc. congruence.
        -- split; [discriminate | lia].
Qed.

Lemma strings_Repeat_nonneg (s : string) (d : Z) :
  0 <= d -> strings_Repeat s d = Some (repeat_string s (Z.to_nat d)).
Proof.
  intros Hd. unfold strings_Repeat.
  destruct (d <? 0) eqn:E; [apply Z.ltb_lt in E; lia | reflexivity].
Qed.

Lemma strings_Repeat_negative (s : string) (d : Z) :
  d < 0 -> strings_Repeat s d = None.
Proof.
  intros Hd. unfold strings_Repeat.
  destruct (d <? 0) eqn:E; [reflexivity | apply Z.ltb_ge in E; lia].
Qed.

(** The test [strings.HasPrefix(hash, strings.Repeat("0", d))] of the
    code is the specification's "at least [d] leading zeros". *)
Lemma HasPrefix_zeros (h : string) (d : Z) :
  0 <= d ->
  strings_HasPrefix h (repeat_string "0" (Z.to_nat d)) = true
  <-> d <= Z.of_nat (leadingZeros h).
Proof.
  intros Hd. unfold strings_HasPrefix. rewrite prefix_repeat_zero. lia.
Qed.

Lemma hex_EncodeToString_length (src : list Byte.byte) :
  String.length (hex_EncodeToString src) = (2 * length src)%nat.
Proof.
  induction src as [|b rest IH]; simpl; [reflexivity | rewrite IH; lia].
Qed.

Lemma leadingZeros_le_length (s : string) :
  (leadingZeros s <= String.length s)%nat.
Proof.
  induction s as [|c rest IH]; simpl; [lia|].
  destruct (Ascii.eqb c "0"); lia.
Qed.

(** ** Ledger core *)

Section LedgerFacts.

Context {lib : Library}.

(** The hash covers the index, the timestamp, the transactions, the
    previous hash and the nonce, and nothing else. *)
Lemma CalculateHash_ext (b b' : Block) :
  Index b = Index b' -> Timestamp b = Timestamp b' ->
  Transactions b = Transactions b' -> PrevHash b = PrevHash b' ->
  Nonce b = Nonce b' ->
  CalculateHash b = CalculateHash b'.
Proof.
  intros H1 H2 H3 H4 H5. unfold CalculateHash.
  rewrite H1, H2, H3, H4, H5. reflexivity.
Qed.

Lemma CalculateHash_set_Hash (b : Block) (h : string) :
  CalculateHash (set_Hash b h) = CalculateHash b.
Proof. apply CalculateHash_ext; reflexivity. Qed.

Lemma ValidateBlock_true (b : Block) :
  ValidateBlock b = Some true <->
  CalculateHash b = Hash b /\
  0 <= Difficulty b <= Z.of_nat (leadingZeros (Hash b)).
Proof.
  unfold ValidateBlock.
  destruct (String.eqb (CalculateHash b) (Hash b)) eqn:E; simpl.
  - apply String.eqb_eq in E.
    destruct (Z_lt_le_dec (Difficulty b) 0) as [Hneg|Hpos].
    + rewrite strings_Repeat_negative by assumption.
      split; [discriminate | lia].
    + rewrite strings_Repeat_nonneg by assumption.
      pose proof (HasPrefix_zeros (Hash b) (Difficulty b) Hpos) as Hz.
      split.
      * intros [= Hp]. apply Hz in Hp. auto with zarith.
      * intros (_ & _ & Hle). apply Hz in Hle. rewrite Hle. reflexivity.
  - apply String.eqb_neq in E. split; [discriminate | tauto].
Qed.

Lemma ValidateBlock_false (b : Block) :
  ValidateBlock b = Some false <->
  CalculateHash b <> Hash b \/
  (0 <= Difficulty b /\ Z.of_nat (leadingZeros (Hash b)) < Difficulty b).
Proof.
  unfold ValidateBlock.
  destruct (String.eqb (CalculateHash b) (Hash b)) eqn:E; simpl.
  - apply String.eqb_eq in E.
    destruct (Z_lt_le_dec (Difficulty b) 0) as [Hneg|Hpos].
    + rewrite strings_Repeat_negative by assumption.
      split; [discriminate | intros [?|[? ?]]; [tauto | lia]].
    + rewrite strings_Repeat_nonneg by assumption.
      pose proof (HasPrefix_zeros (Hash b) (Difficulty b) Hpos) as Hz.
      destruct (strings_HasPrefix (Hash b) _) eqn:Hp.
      * split; [discriminate|]. intros [?|[_ Hlt]]; [tauto|].
        assert (Difficulty b <= Z.of_nat (leadingZeros (Hash b)))
          by (apply Hz; reflexivity). lia.
      * split; [|reflexivity]. intros _. right. split; [assumption|].
        destruct (Z_lt_le_dec (Z.of_nat (leadingZeros (Hash b)))
                    (Difficulty b)) as [?|Hle]; [assumption|].
        apply Hz in Hle. congruence.
  - apply String.eqb_neq in E. split; [tauto | reflexivity].
Qed.

(** A negative difficulty makes [strings.Repeat] panic once the hashes
    agree. *)
Lemma ValidateBlock_panics (b : Block) :
  ValidateBlock b = None <-> CalculateHash b = Hash b /\ Difficulty b < 0.
Proof.
  unfold ValidateBlock.
  destruct (String.eqb (CalculateHash b) (Hash b)) eqn:E; simpl.
  - apply String.eqb_eq in E.
    destruct (Z_lt_le_dec (Difficulty b) 0) as [Hneg|Hpos].
    + rewrite strings_Repeat_negative by assumption. tauto.
    + rewrite strings_Repeat_nonneg by assumption.
      split; [discriminate | lia].
  - apply String.eqb_neq in E. split; [discriminate | tauto].
Qed.

Lemma attempt_0 (b : Block) : attempt b 0 = b.
Proof. destruct b; reflexivity. Qed.

Lemma attempt_step (b : Block) (h : string) (j : nat) :
  attempt (set_Nonce (set_Hash b h) (int64_wrap (Nonce b + 1))) j
  = set_Hash (attempt b (S j)) h.
Proof. reflexivity. Qed.

Lemma mined_step (b : Block) (h : string) (j : nat) :
  mined (set_Nonce (set_Hash b h) (int64_wrap (Nonce b + 1))) j
  = mined b (S j).
Proof.
  unfold mined. rewrite attempt_step, CalculateHash_set_Hash. reflexivity.
Qed.

(** What the mining loop does with [fuel] rounds: it stops at the first
    round whose hash has the target prefix, or uses up its rounds. *)
Lemma Mine_loop_spec (fuel : nat) (target : string) (b : Block) :
  match Mine_loop fuel target b with
  | Some (b', rounds) =>
      exists k : nat,
        rounds = S k /\ (k < fuel)%nat /\ b' = mined b k /\
        strings_HasPrefix (CalculateHash (attempt b k)) target = true /\
        forall j : nat, (j < k)%nat ->
          strings_HasPrefix (CalculateHash (attempt b j)) target = false
  | None =>
      forall j : nat, (j < fuel)%nat ->
        strings_HasPrefix (CalculateHash (attempt b j)) target = false
  end.
Proof.
  revert b. induction fuel as [|fuel IH]; intros b.
  - cbn. intros j Hj. lia.
  - cbn [Mine_loop]. cbn [Hash set_Hash].
    destruct (strings_HasPrefix (CalculateHash b) target) eqn:Hhit.
    + exists 0%nat. unfold mined. rewrite attempt_0.
      repeat split; [lia | assumption | intros j Hj; lia].
    + cbn [Nonce set_Hash].
      specialize (IH (set_Nonce (set_Hash b (CalculateHash b))
                        (int64_wrap (Nonce b + 1)))).
      destruct (Mine_loop fuel target _) as [[b' r]|].
      * destruct IH as (k & -> & Hk & -> & Hk_hit & Hbefore).
        exists (S k). rewrite mined_step.
        rewrite attempt_step, CalculateHash_set_Hash in Hk_hit.
        repeat split; [lia | assumption |].
        intros [|j] Hj; [rewrite attempt_0; assumption|].
        specialize (Hbefore j ltac:(lia)).
        rewrite attempt_step, CalculateHash_set_Hash in Hbefore.
        assumption.
      * intros [|j] Hj; [rewrite attempt_0; assumption|].
        specialize (IH j ltac:(lia)).
        rewrite attempt_step, CalculateHash_set_Hash in IH. assumption.
Qed.

Lemma mined_fields (b : Block) (k : nat) :
  Hash (mined b k) = CalculateHash (mined b k) /\
  Nonce (mined b k) = nonce_after (Nonce b) k /\
  Difficulty (mined b k) = Difficulty b /\
  Index (mined b k) = Index b /\ Timestamp (mined b k) = Timestamp b /\
  Transactions (mined b k) = Transactions b /\
  PrevHash (mined b k) = PrevHash b.
Proof.
  unfold mined. rewrite CalculateHash_set_Hash. repeat split.
Qed.

(** The hex digest of a 32-byte sum has 64 characters, so no hash has
    more than 64 leading zeros: a difficulty above 64 is never met. *)
Lemma Mine_above_hash_length (b : Block) (fuel : nat) :
  (forall data, length (sha256_Sum256 data) = 32%nat) ->
  64 < Difficulty b ->
  Mine fuel b = StillMining.
Proof.
  intros Hlen Hd. unfold Mine.
  rewrite strings_Repeat_nonneg by lia.
  pose proof (Mine_loop_spec fuel
                (repeat_string "0" (Z.to_nat (Difficulty b))) b) as Hspec.
  destruct (Mine_loop fuel _ b) as [[b' r]|]; [|reflexivity].
  destruct Hspec as (k & _ & _ & _ & Hhit & _).
  apply HasPrefix_zeros in Hhit; [|lia].
  pose proof (leadingZeros_le_length (CalculateHash (attempt b k))) as Hle.
  unfold CalculateHash in Hle at 2.
  rewrite hex_EncodeToString_length, Hlen in Hle. lia.
Qed.

End LedgerFacts.

(** ** Chain store *)

Section ChainStoreFacts.

Context {lib : Library}.

Lemma AddBlock_checks_empty (bc : Blockchain) (block : Block) :
  Blocks bc = [] -> AddBlock_checks bc block = Some None.
Proof. intros H. unfold AddBlock_checks. rewrite H. reflexivity. Qed.

Lemma AddBlock_checks_linkage (bc : Blockchain) (previousBlock block : Block) :
  last (Blocks bc) = Some previousBlock ->
  PrevHash block <> Hash previousBlock ->
  AddBlock_checks bc block = Some (Some "invalid previous hash").
Proof.
  intros Hlast Hne. unfold AddBlock_checks. rewrite Hlast.
  apply String.eqb_neq in Hne. rewrite Hne. reflexivity.
Qed.

Lemma AddBlock_checks_linked (bc : Blockchain) (previousBlock block : Block) :
  last (Blocks bc) = Some previousBlock ->
  PrevHash block = Hash previousBlock ->
  AddBlock_checks bc block =
    match ValidateBlock block with
    | None => None
    | Some false => Some (Some "invalid block proof of work")
    | Some true => Some None
    end.
Proof.
  intros Hlast Heq. unfold AddBlock_checks. rewrite Hlast.
  apply String.eqb_eq in Heq. rewrite Heq. reflexivity.
Qed.

Lemma AddBlock_checks_pass (bc : Blockchain) (block : Block) :
  AddBlock_checks bc block = Some None <-> acceptable bc block.
Proof.
  unfold acceptable. destruct (last (Blocks bc)) as [prev|] eqn:Hlast.
  - destruct (String.eqb_spec (PrevHash block) (Hash prev)) as [Heq|Hne].
    + rewrite (AddBlock_checks_linked _ _ _ Hlast Heq). split.
      * intros H. right. exists prev.
        destruct (ValidateBlock block) as [[|]|]; try discriminate. auto.
      * intros [Hnil|(p & [= <-] & _ & ->)]; [|reflexivity].
        rewrite Hnil in Hlast. discriminate.
    + rewrite (AddBlock_checks_linkage _ _ _ Hlast Hne). split.
      * discriminate.
      * intros [Hnil|(p & [= <-] & Heq & _)]; [|contradiction].
        rewrite Hnil in Hlast. discriminate.
  - apply last_None in Hlast. rewrite (AddBlock_checks_empty _ _ Hlast).
    split; auto.
Qed.

(** A successful [AddBlock] appended an acceptable block. *)
Lemma AddBlock_success (bc bc' : Blockchain) (block : Block) (w w' : World) :
  AddBlock bc block w = Done (bc', None) w' ->
  acceptable bc block /\ bc' = set_Blocks bc (Blocks bc ++ [block]).
Proof.
  unfold AddBlock. intros H.
  destruct (AddBlock_checks bc block) as [[e|]|] eqn:Hc; try discriminate.
  apply AddBlock_checks_pass in Hc. split; [assumption|].
  destruct (StoreBlock block w) as [[h|e] w1]; [|discriminate].
  destruct (shell_Pin h w1) as [[e|] w2]; [discriminate|].
  congruence.
Qed.

(** An [AddBlock] that returns an error leaves the chain as it was. *)
Lemma AddBlock_error_keeps_chain (bc bc' : Blockchain) (block : Block)
    (e : error) (w w' : World) :
  AddBlock bc block w = Done (bc', Some e) w' -> bc' = bc.
Proof.
  unfold AddBlock. intros H.
  destruct (AddBlock_checks bc block) as [[e0|]|]; try discriminate.
  - congruence.
  - destruct (StoreBlock block w) as [[h|e1] w1]; [|congruence].
    destruct (shell_Pin h w1) as [[e2|] w2]; [congruence|discriminate].
Qed.

(** The validation loop accepts exactly the lists in which every block
    after the first links to its predecessor and validates. *)
Lemma checkBlocksFrom_ok (i : nat) (previousBlock : Block)
    (rest : list Block) :
  checkBlocksFrom i previousBlock rest = ChainOk <->
  forall (j : nat) (p c : Block),
    (previousBlock :: rest) !! j = Some p ->
    (previousBlock :: rest) !! S j = Some c ->
    PrevHash c = Hash p /\ ValidateBlock c = Some true.
Proof.
  revert i previousBlock.
  induction rest as [|cur rest IH]; intros i prev.
  - split; [|reflexivity]. intros _ j p c _ Hc.
    destruct j; discriminate.
  - cbn [checkBlocksFrom].
    destruct (String.eqb_spec (PrevHash cur) (Hash prev)) as [Heq|Hne];
      cbn [negb].
    + destruct (ValidateBlock cur) as [[|]|] eqn:Hv.
      * rewrite IH. split.
        -- intros H [|j] p c Hp Hc.
           ++ injection Hp as <-. injection Hc as <-. auto.
           ++ apply (H j p c); assumption.
        -- intros H j p c Hp Hc. apply (H (S j) p c); assumption.
      * split; [discriminate|]. intros H.
        destruct (H 0%nat prev cur eq_refl eq_refl) as [_ Hv'].
        congruence.
      * split; [discriminate|]. intros H.
        destruct (H 0%nat prev cur eq_refl eq_refl) as [_ Hv'].
        congruence.
    + split; [discriminate|]. intros H.
      destruct (H 0%nat prev cur eq_refl eq_refl) as [Heq' _].
      contradiction.
Qed.

Lemma checkBlocks_ok (blocks : list Block) :
  checkBlocks blocks = ChainOk <->
  forall (j : nat) (p c : Block),
    blocks !! j = Some p -> blocks !! S j = Some c ->
    PrevHash c = Hash p /\ ValidateBlock c = Some true.
Proof.
  destruct blocks as [|first rest].
  - split; [|reflexivity]. intros _ j p c Hp. discriminate.
  - apply checkBlocksFrom_ok.
Qed.

Lemma IsValid_true (bc : Blockchain) :
  IsValid bc = Some true <-> checkBlocks (Blocks bc) = ChainOk.
Proof.
  unfold IsValid. destruct (checkBlocks (Blocks bc));
    split; congruence.
Qed.

(** Appending an acceptable block keeps the chain valid. *)
Lemma checkBlocks_snoc (blocks : list Block) (block : Block) :
  checkBlocks blocks = ChainOk ->
  (blocks = [] \/
   exists previousBlock, last blocks = Some previousBlock /\
     PrevHash block = Hash previousBlock /\
     ValidateBlock block = Some true) ->
  checkBlocks (blocks ++ [block]) = ChainOk.
Proof.
  intros Hok Hacc. apply checkBlocks_ok. intros j p c Hp Hc.
  destruct (decide (S j < length blocks)%nat) as [Hlt|Hge].
  - rewrite lookup_app_l in Hp by lia. rewrite lookup_app_l in Hc by lia.
    apply (proj1 (checkBlocks_ok blocks) Hok j p c); assumption.
  - destruct Hacc as [->|(prev & Hlast & Hlink & Hv)].
    + destruct j; discriminate.
    + assert (Hlen : S j = length blocks).
      { apply lookup_lt_Some in Hc. rewrite length_app in Hc.
        cbn in Hc. lia. }
      rewrite lookup_app_l in Hp by lia.
      rewrite last_lookup in Hlast.
      replace (pred (length blocks)) with j in Hlast by lia.
      rewrite lookup_app_r in Hc by lia.
      replace (S j - length blocks)%nat with 0%nat in Hc by lia.
      injection Hc as <-. split; congruence.
Qed.

End ChainStoreFacts.

(** ** Mining and block validation *)

Section LedgerClaims.

Context {lib : Library}.

(** Whatever [Mine] returns is the first attempt that meets the target,
    with its hash stored. *)
Lemma Mine_result (b b' : Block) (fuel rounds : nat) :
  Mine fuel b = Mined b' rounds ->
  exists k : nat,
    rounds = S k /\ (k < fuel)%nat /\ b' = mined b k /\
    0 <= Difficulty b <= Z.of_nat (leadingZeros (Hash b')) /\
    forall j : nat, (j < k)%nat ->
      Z.of_nat (leadingZeros (CalculateHash (attempt b j))) < Difficulty b.
Proof.
  unfold Mine. intros H.
  destruct (Z_lt_le_dec (Difficulty b) 0) as [Hneg|Hd].
  { rewrite strings_Repeat_negative in H by assumption. discriminate. }
  rewrite strings_Repeat_nonneg in H by assumption.
  pose proof (Mine_loop_spec fuel
                (repeat_string "0" (Z.to_nat (Difficulty b))) b) as Hspec.
  destruct (Mine_loop fuel _ b) as [[b0 r]|]; [|discriminate].
  injection H as -> ->.
  destruct Hspec as (k & -> & Hk & -> & Hhit & Hbefore).
  exists k. repeat split; try assumption.
  - destruct (mined_fields b k) as (-> & _).
    unfold mined. rewrite CalculateHash_set_Hash.
    apply HasPrefix_zeros; assumption.
  - intros j Hj. specialize (Hbefore j Hj).
    destruct (Z_lt_le_dec
                (Z.of_nat (leadingZeros (CalculateHash (attempt b j))))
                (Difficulty b)) as [?|Hle]; [assumption|].
    apply HasPrefix_zeros in Hle; [congruence | assumption].
Qed.

(** C7 (amended).  For every block [b] with a difficulty [d >= 0]: if the
    hash of [b] after some number [k] of nonce increments has at least [d]
    leading ['0'] characters, then [Mine] returns, within [k + 1] rounds,
    the block of the first such round; its stored hash is the hash
    recomputed from its final fields and has at least [d] leading ['0']
    characters.  For [d = 0] it returns in the first round with the nonce
    unchanged (0 for a block made by [CreateBlock]). *)
Theorem Mine_returns_first_hit (b : Block) (k fuel : nat)
    (Hd : 0 <= Difficulty b)
    (Hhit : Difficulty b
            <= Z.of_nat (leadingZeros (CalculateHash (attempt b k))))
    (Hfuel : (k < fuel)%nat) :
  exists (b' : Block) (rounds : nat),
    Mine fuel b = Mined b' rounds /\
    (rounds <= S k)%nat /\
    b' = mined b (pred rounds) /\
    Hash b' = CalculateHash b' /\
    Difficulty b <= Z.of_nat (leadingZeros (Hash b')) /\
    (forall j : nat, (S j < rounds)%nat ->
       Z.of_nat (leadingZeros (CalculateHash (attempt b j)))
       < Difficulty b) /\
    (Difficulty b = 0 -> rounds = 1%nat /\ Nonce b' = Nonce b).
Proof.
  destruct (Mine fuel b) as [b' rounds| |] eqn:HM.
  - destruct (Mine_result _ _ _ _ HM) as (k0 & -> & Hk0 & -> & Hz & Hbefore).
    exists (mined b k0), (S k0). cbn [pred].
    assert (Hle : (k0 <= k)%nat).
    { destruct (le_lt_dec k0 k) as [?|Hlt]; [assumption|].
      specialize (Hbefore k Hlt). lia. }
    repeat split; try (apply mined_fields); try lia.
    + intros j Hj. apply Hbefore. lia.
    + destruct k0 as [|k0]; [reflexivity|].
      specialize (Hbefore 0%nat ltac:(lia)). lia.
    + destruct k0 as [|k0]; [apply mined_fields|].
      specialize (Hbefore 0%nat ltac:(lia)). lia.
  - unfold Mine in HM. rewrite strings_Repeat_nonneg in HM by assumption.
    destruct (Mine_loop fuel _ b) as [[? ?]|]; discriminate.
  - exfalso. unfold Mine in HM.
    rewrite strings_Repeat_nonneg in HM by assumption.
    pose proof (Mine_loop_spec fuel
                  (repeat_string "0" (Z.to_nat (Difficulty b))) b) as Hspec.
    destruct (Mine_loop fuel _ b) as [[? ?]|]; [discriminate|].
    specialize (Hspec k Hfuel).
    apply HasPrefix_zeros in Hhit; [congruence | assumption].
Qed.

End LedgerClaims.

Lemma Mine_returns_first_hit_witness :
  exists (b' : Block) (rounds : nat),
    Mine (lib := fixture) 65 (set_Nonce (set_Hash fixture_genesis "") 0)
    = Mined b' rounds /\
    (rounds <= 65)%nat /\
    b' = mined (lib := fixture)
           (set_Nonce (set_Hash fixture_genesis "") 0) (pred rounds) /\
    Hash b' = CalculateHash (lib := fixture) b' /\
    1 <= Z.of_nat (leadingZeros (Hash b')) /\
    (forall j : nat, (S j < rounds)%nat ->
       Z.of_nat (leadingZeros
                   (CalculateHash (lib := fixture)
                      (attempt (set_Nonce (set_Hash fixture_genesis "") 0)
                         j))) < 1) /\
    (1 = 0 -> rounds = 1%nat /\ Nonce b' = 0).
Proof.
  apply (Mine_returns_first_hit (lib := fixture)
           (set_Nonce (set_Hash fixture_genesis "") 0) 64 65).
  - vm_compute. discriminate.
  - vm_compute. discriminate.
  - lia.
Defined.

(** C7, as stated, fails: no hash has 65 leading zeros, so [Mine] on a
    block of difficulty 65 never returns, whatever the number of rounds. *)
Lemma Mine_difficulty_65_never_returns :
  Difficulty (set_Hash fixture_genesis "") + 64
  = Difficulty
      {| Index := 0; Timestamp := 1700000000; Transactions := [];
         PrevHash := ""; Hash := ""; Nonce := 0; Difficulty := 65 |} /\
  forall fuel : nat,
    Mine (lib := fixture) fuel
      {| Index := 0; Timestamp := 1700000000; Transactions := [];
         PrevHash := ""; Hash := ""; Nonce := 0; Difficulty := 65 |}
    = StillMining.
Proof.
  split; [reflexivity|]. intros fuel.
  apply Mine_above_hash_length; [|cbn; lia].
  intros data. reflexivity.
Qed.

(** ** Appending and validating *)

Section ChainClaims.

Context {lib : Library}.



(** C3 (amended).  When the IPFS store (or the pin) of a block that
    passed the checks fails during [AddBlock], the failure is returned to
    the caller as an error and the block is not appended: the chain is
    exactly what it was before the call. *)
Theorem AddBlock_store_failure (bc : Blockchain) (block : Block) (w : World)
    (Hacc : acceptable bc block) :
  (forall (e : error) (w1 : World),
     StoreBlock block w = (Err e, w1) ->
     AddBlock bc block w
     = Done (bc, Some ("failed to store block in IPFS: " ++ e)) w1) /\
  (forall (ipfsHash : string) (e : error) (w1 w2 : World),
     StoreBlock block w = (Ok ipfsHash, w1) ->
     shell_Pin ipfsHash w1 = (Some e, w2) ->
     AddBlock bc block w
     = Done (bc, Some ("failed to pin block in IPFS: " ++ e)) w2).
Proof.
  apply AddBlock_checks_pass in Hacc. unfold AddBlock. rewrite Hacc. split.
  - intros e w1 ->. reflexivity.
  - intros h e w1 w2 -> ->. reflexivity.
Qed.

(** C10.  On an empty chain [AddBlock] makes neither the linkage check nor
    the proof-of-work check: whatever the block (its stored hash may differ
    from the recomputed one, or miss the target), the call never panics,
    appends the block as the first block when the IPFS store and pin
    succeed, and can fail only with the store or the pin error, leaving
    the chain empty. *)
Theorem AddBlock_on_empty_chain (bc : Blockchain) (block : Block) (w : World)
    (Hempty : Blocks bc = []) :
  AddBlock bc block w <> Panicked /\
  (forall (ipfsHash : string) (w1 w2 : World),
     StoreBlock block w = (Ok ipfsHash, w1) ->
     shell_Pin ipfsHash w1 = (None, w2) ->
     AddBlock bc block w = Done (set_Blocks bc [block], None) w2) /\
  (forall (bc' : Blockchain) (e : error) (w' : World),
     AddBlock bc block w = Done (bc', Some e) w' ->
     bc' = bc /\
     ((exists e0 : error,
         StoreBlock block w = (Err e0, w') /\
         e = "failed to store block in IPFS: " ++ e0) \/
      (exists (ipfsHash : string) (w1 : World) (e0 : error),
         StoreBlock block w = (Ok ipfsHash, w1) /\
         shell_Pin ipfsHash w1 = (Some e0, w') /\
         e = "failed to pin block in IPFS: " ++ e0))).
Proof.
  unfold AddBlock. rewrite (AddBlock_checks_empty _ _ Hempty).
  destruct (StoreBlock block w) as [[h|e0] w1] eqn:Hs.
  - destruct (shell_Pin h w1) as [[e1|] w2] eqn:Hp.
    + split; [discriminate|]. split.
      * intros h' w1' w2' [= <- <-]. rewrite Hp. discriminate.
      * intros bc' e w' [= <- <- <-]. split; [reflexivity|].
        right. exists h, w1, e1. auto.
    + split; [discriminate|]. split.
      * intros h' w1' w2' [= <- <-]. rewrite Hp. intros [= <-].
        rewrite Hempty. reflexivity.
      * intros bc' e w'. discriminate.
  - split; [discriminate|]. split.
    + intros h' w1' w2'. discriminate.
    + intros bc' e w' [= <- <- <-]. split; [reflexivity|].
      left. exists e0. auto.
Qed.

(** C6.  Every chain obtained from the empty chain by successful
    [AddBlock] calls (the first of them the genesis append) passes
    [IsValid]. *)
Theorem produced_IsValid (bc : Blockchain) (Hprod : produced bc) :
  IsValid bc = Some true.
Proof.
  induction Hprod as [d|bc bc' block w w' Hprod IH Hadd].
  - reflexivity.
  - apply AddBlock_success in Hadd. destruct Hadd as [Hacc ->].
    apply IsValid_true. apply IsValid_true in IH. cbn [Blocks set_Blocks].
    apply checkBlocks_snoc; assumption.
Qed.

(** The block-level reading of the validation loop. *)
Lemma checkBlocks_links_valid (blocks : list Block) :
  checkBlocks blocks = ChainOk <-> links_valid blocks.
Proof.
  rewrite checkBlocks_ok. unfold links_valid, block_invariants. split.
  - intros H i prev cur Hp Hc. destruct (H i prev cur Hp Hc) as [Hl Hv].
    apply ValidateBlock_true in Hv. tauto.
  - intros H i prev cur Hp Hc. destruct (H i prev cur Hp Hc) as (? & ? & ?).
    split; [assumption|]. apply ValidateBlock_true. tauto.
Qed.

(** C9 (amended).  [IsValid] returns true exactly for the chains in which
    every block after the first has its stored hash equal to the
    recomputed hash, meets its difficulty target and carries the hash of
    the block before it as [PrevHash]; the first block is not inspected.
    Hence every chain that satisfies the chain invariant of the data
    model passes [IsValid], but a chain can pass it without a well-formed
    genesis block. *)
Theorem IsValid_iff_links_valid (bc : Blockchain) :
  (IsValid bc = Some true <-> links_valid (Blocks bc)) /\
  (chain_invariant (Blocks bc) -> IsValid bc = Some true).
Proof.
  assert (H : IsValid bc = Some true <-> links_valid (Blocks bc)).
  { rewrite IsValid_true. apply checkBlocks_links_valid. }
  split; [assumption|].
  intros Hinv. apply H. unfold chain_invariant in Hinv.
  destruct (Blocks bc); [contradiction | tauto].
Qed.

End ChainClaims.


Lemma fixture_block1_acceptable :
  acceptable (lib := fixture) fixture_local fixture_block1.
Proof.
  right. exists fixture_genesis. repeat split; vm_compute; reflexivity.
Qed.



Lemma AddBlock_store_failure_witness :
  acceptable (lib := fixture) fixture_local fixture_block1 /\
  AddBlock (lib := fixture) fixture_local fixture_block1 false
  = Done (fixture_local,
          Some ("failed to store block in IPFS: "
                ++ "failed to add block to IPFS: node unreachable")) false.
Proof.
  split; [exact fixture_block1_acceptable|].
  apply (proj1 (AddBlock_store_failure (lib := fixture) fixture_local
                  fixture_block1 false fixture_block1_acceptable)).
  reflexivity.
Defined.

(** C3, as stated, fails: when the store fails during the genesis append
    the error is returned and the block is not in the chain afterwards. *)
Lemma AddBlock_store_failure_drops_block :
  exists (e : error),
    AddBlock (lib := fixture) {| Blocks := []; ChainDifficulty := 1 |}
      fixture_genesis false
    = Done ({| Blocks := []; ChainDifficulty := 1 |}, Some e) false /\
    Blocks {| Blocks := []; ChainDifficulty := 1 |} <> [fixture_genesis].
Proof.
  eexists. split; [vm_compute; reflexivity | discriminate].
Qed.

Lemma AddBlock_on_empty_chain_witness :
  Blocks {| Blocks := []; ChainDifficulty := 4 |} = [] /\
  ValidateBlock (lib := fixture) fixture_odd_first = Some false /\
  AddBlock (lib := fixture) {| Blocks := []; ChainDifficulty := 4 |}
    fixture_odd_first true
  = Done ({| Blocks := [fixture_odd_first]; ChainDifficulty := 4 |}, None)
      true.
Proof.
  split; [reflexivity|]. split; [vm_compute; reflexivity|].
  apply (proj1 (proj2 (AddBlock_on_empty_chain (lib := fixture)
           {| Blocks := []; ChainDifficulty := 4 |} fixture_odd_first true
           eq_refl)) "QmBlock" true true); reflexivity.
Defined.

Lemma fixture_remote_produced : produced (lib := fixture) fixture_remote.
Proof.
  apply (produced_append (lib := fixture) fixture_local fixture_remote
           fixture_block1 true true); [|vm_compute; reflexivity].
  apply (produced_append (lib := fixture)
           {| Blocks := []; ChainDifficulty := 1 |} fixture_local
           fixture_genesis true true); [|vm_compute; reflexivity].
  apply produced_empty.
Qed.

Lemma produced_IsValid_witness :
  produced (lib := fixture) fixture_remote /\
  IsValid (lib := fixture) fixture_remote = Some true.
Proof.
  split; [exact fixture_remote_produced|].
  apply (produced_IsValid (lib := fixture) fixture_remote
           fixture_remote_produced).
Defined.

Lemma IsValid_iff_links_valid_witness :
  links_valid (lib := fixture) (Blocks fixture_remote) /\
  ~ links_valid (lib := fixture) [fixture_genesis; fixture_tampered].
Proof.
  split.
  - apply (proj1 (proj1 (IsValid_iff_links_valid (lib := fixture)
                           fixture_remote))).
    vm_compute. reflexivity.
  - intros H.
    apply (proj2 (proj1 (IsValid_iff_links_valid (lib := fixture)
             {| Blocks := [fixture_genesis; fixture_tampered];
                ChainDifficulty := 1 |}))) in H.
    vm_compute in H. discriminate.
Defined.

(** C9, as stated, fails: a chain whose first block has index 5, a
    transaction and a non-empty [PrevHash] passes [IsValid], although its
    genesis block is not well-formed. *)
Lemma IsValid_accepts_malformed_genesis :
  IsValid (lib := fixture)
    {| Blocks := [fixture_odd_first]; ChainDifficulty := 4 |} = Some true /\
  ~ genesis_well_formed fixture_odd_first /\
  ~ chain_invariant (lib := fixture) [fixture_odd_first].
Proof.
  split; [reflexivity|]. split.
  - intros (H & _). discriminate.
  - intros ((H & _) & _). discriminate.
Qed.

(** ** Reconciliation *)

Section ReconciliationFacts.

Context {lib : Library}.

Lemma set_blockchain_same (pn : PeerNetwork) (bc : Blockchain) :
  blockchain pn = Some bc -> set_blockchain pn (Some bc) = pn.
Proof. destruct pn. cbn. intros ->. reflexivity. Qed.

(** A decoded payload is never a pointer to a struct of the package. *)
Lemma decode_interface_generic (v : JSONValue) :
  (exists s, decode_interface v = DString s) \/
  (exists v', decode_interface v = DGeneric v').
Proof. destruct v; cbn; eauto. Qed.

(** A message read from a connection whose kind expects a [*Block], a
    [*Transaction] or a [*Blockchain] payload fails the type assertion of
    [handleMessage]: nothing is appended, adopted or sent. *)
Lemma receive_struct_payload_ignored (pn : PeerNetwork) (m : WireMessage)
    (conn : nat) (w : World) :
  wireType m = MessageTypeNewBlock \/
  wireType m = MessageTypeNewTx \/
  wireType m = MessageTypeBlockchainResponse ->
  receive pn m conn w = Done (pn, []) w.
Proof.
  intros Hty. unfold receive, handleMessage, Decode. cbn [MsgType Content].
  destruct (decode_interface_generic (wireContent m)) as [[s ->]|[v ->]];
    destruct Hty as [->|[->| ->]]; reflexivity.
Qed.



(** [RestoreFromIPFS] installs the retrieved blocks only when the
    validation loop accepts them; otherwise the chain is untouched. *)
Lemma RestoreFromIPFS_result (bc bc' : Blockchain) (hash : string)
    (err : option error) (w w' : World) :
  RestoreFromIPFS bc hash w = Done (bc', err) w' ->
  (err <> None /\ bc' = bc) \/
  (err = None /\
   exists blocks : list Block,
     RetrieveBlockchain hash w = (Ok blocks, w') /\
     checkBlocks blocks = ChainOk /\ bc' = set_Blocks bc blocks).
Proof.
  unfold RestoreFromIPFS. intros H.
  destruct (RetrieveBlockchain hash w) as [[blocks|e] w1].
  - destruct (checkBlocks blocks) eqn:Hc; try discriminate;
      injection H as <- <- <-.
    + right. split; [reflexivity|]. exists blocks. auto.
    + left. split; [discriminate | reflexivity].
    + left. split; [discriminate | reflexivity].
  - injection H as <- <- <-. left. split; [discriminate | reflexivity].
Qed.


End ReconciliationFacts.



(** C4, at a message the node really receives.  Peer [localhost:9002]
    sends a [NEW_BLOCK] message carrying [fixture_block1], a block that
    [AddBlock] would append to the local chain; the handler neither
    appends it nor forwards it to the connected peer, because the decoded
    payload is not a [*Block]. *)
Lemma received_new_block_is_dropped :
  AddBlock (lib := fixture) fixture_local fixture_block1 true
  = Done (fixture_remote, None) true /\
  Peers fixture_network !! "localhost:9002" = Some fixture_peer /\
  receive (lib := fixture) fixture_network fixture_new_block_message 2 true
  = Done (fixture_network, []) true.
Proof.
  split; [vm_compute; reflexivity|]. split; [vm_compute; reflexivity|].
  apply (receive_struct_payload_ignored (lib := fixture)). left. reflexivity.
Qed.

(** C1, at a message the node really receives.  Peer [localhost:9002]
    answers with a [BLOCKCHAIN_RESPONSE] carrying a chain of two blocks
    that passes [IsValid], while the local chain has one block; the local
    chain is not replaced, because the decoded payload is not a
    [*Blockchain]. *)
Lemma received_chain_is_not_adopted :
  IsValid (lib := fixture) fixture_remote = Some true /\
  (length (Blocks fixture_local) < length (Blocks fixture_remote))%nat /\
  receive (lib := fixture) fixture_network fixture_chain_response 2 true
  = Done (fixture_network, []) true.
Proof.
  split; [vm_compute; reflexivity|]. split; [cbn; lia|].
  apply (receive_struct_payload_ignored (lib := fixture)). right. right. reflexivity.
Qed.

(** * Further properties of the package *)

(** ** block.go *)

Section LedgerMore.

Context {lib : Library}.

(** For a difficulty of at most 64, the number of hex characters of a
    SHA-256 digest and so the largest target a hash can meet, [Mine]
    panics exactly when the difficulty is negative, and then before its
    first round, whatever the number of rounds it is given.  (A target of
    at most 64 characters is built by [strings.Repeat] without an
    allocation failure.) *)
Theorem Mine_panics_iff_negative_difficulty (fuel : nat) (b : Block)
    (Hd : Difficulty b <= 64) :
  Mine fuel b = MinePanicked <-> Difficulty b < 0.
Proof.
  unfold Mine. destruct (Z_lt_le_dec (Difficulty b) 0) as [Hneg|Hpos].
  - rewrite strings_Repeat_negative by assumption. tauto.
  - rewrite strings_Repeat_nonneg by assumption.
    destruct (Mine_loop fuel _ b) as [[b' k]|];
      (split; [discriminate | lia]).
Qed.

Lemma Mined_block_links (fuel rounds : nat) (b b' : Block) :
  Mine fuel b = Mined b' rounds ->
  ValidateBlock b' = Some true /\ PrevHash b' = PrevHash b.
Proof.
  intros H. apply Mine_result in H.
  destruct H as (k & -> & _ & -> & Hz & _).
  destruct (mined_fields b k) as (Hh & _ & Hd & _ & _ & _ & Hp).
  split; [|exact Hp]. apply ValidateBlock_true. rewrite Hd. auto.
Qed.


Lemma ValidateBlock_set_Hash (b : Block) (h : string) :
  ValidateBlock b = Some true -> h <> Hash b ->
  ValidateBlock (set_Hash b h) = Some false.
Proof.
  intros Hvalid Hne. apply ValidateBlock_true in Hvalid.
  destruct Hvalid as [Heq _]. apply ValidateBlock_false. left.
  rewrite CalculateHash_set_Hash. cbn. congruence.
Qed.

(** A block returned by [Mine] passes [ValidateBlock], and differs from
    the block given only in its hash and in its nonce, which was
    incremented once per round before the last. *)
Theorem Mine_result_validates (fuel rounds : nat) (b b' : Block)
    (Hmined : Mine fuel b = Mined b' rounds) :
  ValidateBlock b' = Some true /\
  Index b' = Index b /\ Timestamp b' = Timestamp b /\
  Transactions b' = Transactions b /\ PrevHash b' = PrevHash b /\
  Difficulty b' = Difficulty b /\
  Nonce b' = nonce_after (Nonce b) (pred rounds).
Proof.
  apply Mine_result in Hmined.
  destruct Hmined as (k & -> & _ & -> & Hz & _).
  destruct (mined_fields b k) as (Hh & Hn & Hd & Hi & Ht & Htx & Hp).
  split; [|tauto].
  apply ValidateBlock_true. rewrite Hd. auto.
Qed.

(** Overwriting the stored hash of a valid block makes it invalid. *)
Theorem ValidateBlock_rejects_changed_hash (b : Block) (h : string)
    (Hvalid : ValidateBlock b = Some true) (Hchanged : h <> Hash b) :
  ValidateBlock (set_Hash b h) = Some false.
Proof.
  apply ValidateBlock_true in Hvalid. destruct Hvalid as [Heq _].
  apply ValidateBlock_false. left.
  rewrite CalculateHash_set_Hash. cbn. congruence.
Qed.

(** The difficulty is not part of the hashed fields: lowering the
    difficulty field of a valid block leaves it valid, and every block
    becomes valid once its difficulty is set to 0 and its hash to the
    recomputed hash, without any mining. *)
Theorem ValidateBlock_difficulty_not_hashed (b : Block) :
  (forall d : Z,
     ValidateBlock b = Some true -> 0 <= d <= Difficulty b ->
     ValidateBlock (set_Difficulty b d) = Some true) /\
  ValidateBlock (set_Hash (set_Difficulty b 0) (CalculateHash b))
  = Some true.
Proof.
  split.
  - intros d Hvalid Hd. apply ValidateBlock_true in Hvalid.
    destruct Hvalid as (Heq & H0 & Hle).
    apply ValidateBlock_true. cbn [Hash Difficulty set_Difficulty].
    split; [|lia]. rewrite <- Heq. apply CalculateHash_ext; reflexivity.
  - apply ValidateBlock_true. cbn [Hash Difficulty set_Hash set_Difficulty].
    split; [apply CalculateHash_ext; reflexivity | lia].
Qed.

(** [CreateBlock] returns a valid block with the index, transactions and
    previous hash it was given, the timestamp of the call and the
    difficulty asked for. *)
Theorem CreateBlock_result (fuel rounds : nat) (now index difficulty : Z)
    (transactions : list Transaction) (prevHash : string) (b : Block)
    (Hcreated : CreateBlock fuel now index transactions prevHash difficulty
                = Mined b rounds) :
  ValidateBlock b = Some true /\
  Index b = index /\ Timestamp b = now /\
  Transactions b = transactions /\ PrevHash b = prevHash /\
  Difficulty b = difficulty /\ 0 <= difficulty /\
  Nonce b = nonce_after 0 (pred rounds).
Proof.
  unfold CreateBlock in Hcreated.
  remember {| Index := index; Timestamp := now;
              Transactions := transactions; PrevHash := prevHash;
              Hash := ""; Nonce := 0; Difficulty := difficulty |}
    as b0 eqn:Hb0.
  apply Mine_result in Hcreated.
  destruct Hcreated as (k & -> & _ & -> & Hz & _).
  destruct (mined_fields b0 k) as (Hh & Hn & Hd & Hi & Ht & Htx & Hp).
  split; [apply ValidateBlock_true; rewrite Hd; auto|].
  rewrite Hi, Ht, Htx, Hp, Hd, Hn. subst b0. cbn.
  repeat split. cbn in Hz. lia.
Qed.

End LedgerMore.

Lemma Mine_panics_iff_negative_difficulty_witness :
  Difficulty fixture_negative <= 64 /\
  Mine (lib := fixture) 0 fixture_negative = MinePanicked /\
  Mine (lib := fixture) 5 fixture_negative = MinePanicked.
Proof.
  assert (Hd : Difficulty fixture_negative <= 64) by (cbn; lia).
  split; [exact Hd|]. split.
  - apply (proj2 (Mine_panics_iff_negative_difficulty (lib := fixture)
                    0 fixture_negative Hd)).
    cbn. lia.
  - apply (proj2 (Mine_panics_iff_negative_difficulty (lib := fixture)
                    5 fixture_negative Hd)).
    cbn. lia.
Defined.

Lemma Mine_result_validates_witness :
  Mine (lib := fixture) 65 (set_Nonce (set_Hash fixture_genesis "") 0)
  = Mined fixture_genesis 65 /\
  ValidateBlock (lib := fixture) fixture_genesis = Some true /\
  Nonce fixture_genesis
  = nonce_after (Nonce (set_Nonce (set_Hash fixture_genesis "") 0)) 64.
Proof.
  assert (H : Mine (lib := fixture) 65
                (set_Nonce (set_Hash fixture_genesis "") 0)
              = Mined fixture_genesis 65) by (vm_compute; reflexivity).
  split; [exact H|].
  pose proof (Mine_result_validates (lib := fixture) _ _ _ _ H) as Hr.
  split; [apply Hr | apply Hr].
Defined.

Lemma ValidateBlock_rejects_changed_hash_witness :
  ValidateBlock (lib := fixture) fixture_block1 = Some true /\
  ValidateBlock (lib := fixture)
    (set_Hash fixture_block1 (Hash fixture_genesis)) = Some false.
Proof.
  assert (H : ValidateBlock (lib := fixture) fixture_block1 = Some true)
    by (vm_compute; reflexivity).
  split; [exact H|].
  apply (ValidateBlock_rejects_changed_hash (lib := fixture)
           fixture_block1 (Hash fixture_genesis) H).
  vm_compute. discriminate.
Defined.

Lemma CreateBlock_result_witness :
  CreateBlock (lib := fixture) 65 1700000000 0 [] "" 1
  = Mined fixture_genesis 65 /\
  ValidateBlock (lib := fixture) fixture_genesis = Some true /\
  Index fixture_genesis = 0.
Proof.
  assert (H : CreateBlock (lib := fixture) 65 1700000000 0 [] "" 1
              = Mined fixture_genesis 65) by (vm_compute; reflexivity).
  split; [exact H|].
  pose proof (CreateBlock_result (lib := fixture) _ _ _ _ _ _ _ _ H) as Hr.
  split; apply Hr.
Defined.

(** ** blockchain.go and ipfs_handler.go *)

Section ChainStoreMore.

Context {lib : Library}.

(** [AddBlock] is append-only: a call that returns leaves the chain
    difficulty alone and either returns no error, having added the block
    at the end, or returns an error, the chain being what it was. *)
Theorem AddBlock_append_only (bc bc' : Blockchain) (block : Block)
    (err : option error) (w w' : World)
    (Hcall : AddBlock bc block w = Done (bc', err) w') :
  ChainDifficulty bc' = ChainDifficulty bc /\
  ((err = None /\ Blocks bc' = (Blocks bc ++ [block])%list /\
    length (Blocks bc') = S (length (Blocks bc))) \/
   (err <> None /\ bc' = bc)).
Proof.
  destruct err as [e|].
  - apply AddBlock_error_keeps_chain in Hcall. subst bc'.
    split; [reflexivity|]. right. split; [discriminate | reflexivity].
  - apply AddBlock_success in Hcall. destruct Hcall as [_ ->].
    split; [reflexivity|]. left. cbn [Blocks set_Blocks].
    rewrite length_app. cbn. repeat split. lia.
Qed.

(** [GetLatestBlock] returns the block a successful [AddBlock] has just
    appended. *)
Theorem GetLatestBlock_after_AddBlock (bc bc' : Blockchain) (block : Block)
    (w w' : World)
    (Hadded : AddBlock bc block w = Done (bc', None) w') :
  GetLatestBlock bc' = Some block.
Proof.
  apply AddBlock_success in Hadded. destruct Hadded as [_ ->].
  unfold GetLatestBlock. cbn [Blocks set_Blocks]. apply last_snoc.
Qed.

(** [GetLatestBlock] returns nil exactly on the empty chain. *)
Theorem GetLatestBlock_nil_iff_empty (bc : Blockchain) :
  GetLatestBlock bc = None <-> Blocks bc = [].
Proof. unfold GetLatestBlock. apply last_None. Qed.


(** A block made by [CreateBlock] on top of the latest block passes the
    checks of [AddBlock]; it is appended when the IPFS store and pin
    succeed. *)
Theorem CreateBlock_then_AddBlock (bc : Blockchain) (latestBlock b : Block)
    (fuel rounds : nat) (now index : Z) (transactions : list Transaction)
    (Hlatest : GetLatestBlock bc = Some latestBlock)
    (Hcreated : CreateBlock fuel now index transactions (Hash latestBlock)
                  (ChainDifficulty bc) = Mined b rounds) :
  acceptable bc b /\
  forall (w w1 w2 : World) (ipfsHash : string),
    StoreBlock b w = (Ok ipfsHash, w1) ->
    shell_Pin ipfsHash w1 = (None, w2) ->
    AddBlock bc b w = Done (set_Blocks bc (Blocks bc ++ [b]), None) w2.
Proof.
  unfold CreateBlock in Hcreated. apply Mined_block_links in Hcreated.
  destruct Hcreated as [Hv Hp]. cbn in Hp.
  assert (Hacc : acceptable bc b).
  { right. exists latestBlock. auto. }
  split; [exact Hacc|].
  intros w w1 w2 h Hs Hpin. unfold AddBlock.
  rewrite (proj2 (AddBlock_checks_pass bc b) Hacc), Hs, Hpin. reflexivity.
Qed.

(** [IsValid] looks at the first block only through its [Hash] field:
    any two first blocks with the same stored hash give the same
    verdict. *)
Theorem IsValid_first_block_by_hash_only (g g' : Block)
    (rest : list Block) (d d' : Z)
    (Hhash : Hash g' = Hash g) :
  IsValid {| Blocks := g' :: rest; ChainDifficulty := d' |}
  = IsValid {| Blocks := g :: rest; ChainDifficulty := d |}.
Proof.
  unfold IsValid. cbn [Blocks checkBlocks].
  destruct rest as [|cur rest]; [reflexivity|].
  cbn [checkBlocksFrom]. rewrite Hhash. reflexivity.
Qed.

Lemma checkBlocksFrom_changed_hash (i : nat) (previousBlock b : Block)
    (front back : list Block) (h : string) :
  checkBlocksFrom i previousBlock (front ++ b :: back) = ChainOk ->
  h <> Hash b ->
  checkBlocksFrom i previousBlock (front ++ set_Hash b h :: back)
  = InvalidProofAt (i + length front).
Proof.
  revert i previousBlock.
  induction front as [|c front IH]; intros i prev Hok Hne.
  - cbn [app checkBlocksFrom] in *.
    change (PrevHash (set_Hash b h)) with (PrevHash b).
    destruct (String.eqb (PrevHash b) (Hash prev)); cbn [negb] in *;
      [|discriminate].
    destruct (ValidateBlock b) as [[|]|] eqn:Hv; try discriminate.
    rewrite (ValidateBlock_set_Hash b h Hv Hne).
    f_equal. cbn. lia.
  - cbn [app checkBlocksFrom] in *.
    destruct (String.eqb (PrevHash c) (Hash prev)); cbn [negb] in *;
      [|discriminate].
    destruct (ValidateBlock c) as [[|]|]; try discriminate.
    rewrite (IH _ _ Hok Hne). f_equal. cbn. lia.
Qed.

(** [IsValid] detects an overwritten hash: in a chain that passes
    [IsValid], replacing the stored hash of any block but the first by a
    different string makes [IsValid] return false. *)
Theorem IsValid_detects_changed_hash (first b : Block)
    (front back : list Block) (h : string) (d : Z)
    (Hvalid : IsValid {| Blocks := first :: front ++ b :: back;
                         ChainDifficulty := d |} = Some true)
    (Hchanged : h <> Hash b) :
  IsValid {| Blocks := first :: front ++ set_Hash b h :: back;
             ChainDifficulty := d |} = Some false.
Proof.
  apply IsValid_true in Hvalid. unfold IsValid.
  cbn [Blocks checkBlocks] in *.
  rewrite (checkBlocksFrom_changed_hash _ _ _ _ _ _ Hvalid Hchanged).
  reflexivity.
Qed.

(** [RestoreFromIPFS] returns no error only after installing a retrieved
    chain that passes [IsValid]; when it returns an error the chain is
    untouched. *)
Theorem RestoreFromIPFS_installs_valid_chain (bc bc' : Blockchain)
    (hash : string) (err : option error) (w w' : World)
    (Hcall : RestoreFromIPFS bc hash w = Done (bc', err) w') :
  (err <> None /\ bc' = bc) \/
  (err = None /\
   RetrieveBlockchain hash w = (Ok (Blocks bc'), w') /\
   IsValid bc' = Some true /\
   ChainDifficulty bc' = ChainDifficulty bc).
Proof.
  apply RestoreFromIPFS_result in Hcall.
  destruct Hcall as [?|(-> & blocks & Hr & Hok & ->)]; [left; assumption|].
  right. cbn [Blocks set_Blocks ChainDifficulty].
  repeat split; try assumption. apply IsValid_true. exact Hok.
Qed.

(** [RestoreFromIPFS] does not compare lengths: a retrieved chain of no
    block or of one block, whatever that block, replaces the local chain,
    however long it is. *)
Theorem RestoreFromIPFS_installs_short_chain (bc : Blockchain)
    (hash : string) (w w1 : World) (blocks : list Block)
    (Hfetch : RetrieveBlockchain hash w = (Ok blocks, w1))
    (Hshort : (length blocks <= 1)%nat) :
  RestoreFromIPFS bc hash w = Done (set_Blocks bc blocks, None) w1.
Proof.
  unfold RestoreFromIPFS. rewrite Hfetch.
  destruct blocks as [|b [|c rest]]; [reflexivity | reflexivity |].
  cbn in Hshort. lia.
Qed.

End ChainStoreMore.

Lemma AddBlock_append_only_witness :
  AddBlock (lib := fixture) fixture_local fixture_block1 true
  = Done (fixture_remote, None) true /\
  length (Blocks fixture_remote) = S (length (Blocks fixture_local)) /\
  ChainDifficulty fixture_remote = ChainDifficulty fixture_local.
Proof.
  assert (H : AddBlock (lib := fixture) fixture_local fixture_block1 true
              = Done (fixture_remote, None) true)
    by (vm_compute; reflexivity).
  split; [exact H|].
  destruct (AddBlock_append_only (lib := fixture) _ _ _ _ _ _ H)
    as [Hd [(_ & _ & Hlen)|(Hne & _)]].
  - split; [exact Hlen | exact Hd].
  - exfalso. apply Hne. reflexivity.
Defined.

Lemma GetLatestBlock_after_AddBlock_witness :
  AddBlock (lib := fixture) fixture_local fixture_block1 true
  = Done (fixture_remote, None) true /\
  GetLatestBlock fixture_remote = Some fixture_block1.
Proof.
  assert (H : AddBlock (lib := fixture) fixture_local fixture_block1 true
              = Done (fixture_remote, None) true)
    by (vm_compute; reflexivity).
  split; [exact H|].
  apply (GetLatestBlock_after_AddBlock (lib := fixture) _ _ _ _ _ H).
Defined.


Lemma CreateBlock_then_AddBlock_witness :
  GetLatestBlock fixture_local = Some fixture_genesis /\
  CreateBlock (lib := fixture) 10 1700000075 1 [fixture_transfer]
    (Hash fixture_genesis) (ChainDifficulty fixture_local)
  = Mined fixture_block1 1 /\
  AddBlock (lib := fixture) fixture_local fixture_block1 true
  = Done (set_Blocks fixture_local (Blocks fixture_local ++ [fixture_block1]),
          None) true.
Proof.
  assert (H : CreateBlock (lib := fixture) 10 1700000075 1
                [fixture_transfer] (Hash fixture_genesis)
                (ChainDifficulty fixture_local)
              = Mined fixture_block1 1) by (vm_compute; reflexivity).
  split; [reflexivity|]. split; [exact H|].
  apply (proj2 (CreateBlock_then_AddBlock (lib := fixture) fixture_local
                  fixture_genesis fixture_block1 10 1 1700000075 1
                  [fixture_transfer] eq_refl H) true true true "QmBlock");
    reflexivity.
Defined.

Lemma IsValid_first_block_by_hash_only_witness :
  Hash (set_Transactions fixture_genesis [fixture_transfer])
  = Hash fixture_genesis /\
  IsValid (lib := fixture)
    {| Blocks := [set_Transactions fixture_genesis [fixture_transfer];
                  fixture_block1];
       ChainDifficulty := 1 |}
  = IsValid (lib := fixture) fixture_remote.
Proof.
  split; [reflexivity|].
  apply (IsValid_first_block_by_hash_only (lib := fixture) fixture_genesis
           (set_Transactions fixture_genesis [fixture_transfer])
           [fixture_block1] 1 1 eq_refl).
Defined.

Lemma IsValid_detects_changed_hash_witness :
  IsValid (lib := fixture) fixture_remote = Some true /\
  IsValid (lib := fixture)
    {| Blocks := [fixture_genesis; set_Hash fixture_block1 "00"];
       ChainDifficulty := 1 |} = Some false.
Proof.
  assert (H : IsValid (lib := fixture) fixture_remote = Some true)
    by (vm_compute; reflexivity).
  split; [exact H|].
  apply (IsValid_detects_changed_hash (lib := fixture) fixture_genesis
           fixture_block1 [] [] "00" 1 H).
  vm_compute. discriminate.
Defined.

Lemma RestoreFromIPFS_installs_valid_chain_witness :
  RestoreFromIPFS (lib := fixture) fixture_local "QmChain" true
  = Done (fixture_remote, None) true /\
  IsValid (lib := fixture) fixture_remote = Some true.
Proof.
  assert (H : RestoreFromIPFS (lib := fixture) fixture_local "QmChain" true
              = Done (fixture_remote, None) true)
    by (vm_compute; reflexivity).
  split; [exact H|].
  destruct (RestoreFromIPFS_installs_valid_chain (lib := fixture)
              _ _ _ _ _ _ H) as [(Hne & _)|(_ & _ & Hv & _)].
  - exfalso. apply Hne. reflexivity.
  - exact Hv.
Defined.

Lemma RestoreFromIPFS_installs_short_chain_witness :
  RetrieveBlockchain (lib := fixture_stale) "QmOld" true
  = (Ok [fixture_odd_first], true) /\
  (length [fixture_odd_first] <= 1)%nat /\
  RestoreFromIPFS (lib := fixture_stale) fixture_remote "QmOld" true
  = Done (set_Blocks fixture_remote [fixture_odd_first], None) true.
Proof.
  split; [reflexivity|]. split; [cbn; lia|].
  apply (RestoreFromIPFS_installs_short_chain (lib := fixture_stale)
           fixture_remote "QmOld" true true [fixture_odd_first] eq_refl).
  cbn. lia.
Defined.

Section ChainStoreStart.

Context {lib : Library}.

Variable Train : string -> option error.
Variable shell_ID : World -> option error * World.
Variable ValidateTransaction : Transaction -> bool * float64 * string.

(** A chain returned by [NewBlockchain] has the difficulty asked for,
    passes [IsValid], and holds either the mined genesis block alone
    (index 0, no transaction, empty previous hash, valid at that
    difficulty) or no block at all. *)
Theorem NewBlockchain_result (fuel : nat) (now difficulty : Z)
    (trainingFile : string) (w w' : World) (bc : Blockchain)
    (Hbuilt : NewBlockchain Train shell_ID fuel now difficulty trainingFile w
              = Built (Ok bc) w') :
  ChainDifficulty bc = difficulty /\
  IsValid bc = Some true /\
  (Blocks bc = [] \/
   exists genesisBlock : Block,
     Blocks bc = [genesisBlock] /\
     Index genesisBlock = 0 /\ Transactions genesisBlock = [] /\
     PrevHash genesisBlock = "" /\ Difficulty genesisBlock = difficulty /\
     ValidateBlock genesisBlock = Some true).
Proof.
  unfold NewBlockchain in Hbuilt.
  destruct (Train trainingFile); [discriminate|].
  destruct (NewIPFSHandler shell_ID w) as [[e|] w1]; [discriminate|].
  destruct (CreateBlock fuel now 0 [] "" difficulty) as [g r| |] eqn:Hg;
    try discriminate.
  destruct (AddBlock _ g w1) as [[bc1 err] w2|] eqn:Hadd; [|discriminate].
  injection Hbuilt as -> ->.
  unfold CreateBlock in Hg.
  remember {| Index := 0; Timestamp := now; Transactions := [];
              PrevHash := ""; Hash := ""; Nonce := 0;
              Difficulty := difficulty |} as b0 eqn:Hb0.
  apply Mine_result in Hg. destruct Hg as (k & -> & _ & -> & Hz & _).
  destruct (mined_fields b0 k) as (Hh & Hn & Hd & Hi & Ht & Htx & Hp).
  destruct err as [e|].
  - apply AddBlock_error_keeps_chain in Hadd. subst bc.
    split; [reflexivity|]. split; [reflexivity|]. left. reflexivity.
  - apply AddBlock_success in Hadd. destruct Hadd as [_ ->].
    split; [reflexivity|]. split; [reflexivity|]. right.
    exists (mined b0 k). rewrite Hi, Htx, Hp, Hd. subst b0. cbn.
    repeat split. apply ValidateBlock_true. split; [auto|].
    cbn in Hz. exact Hz.
Qed.

(** [NewBlockchain] discards the error of the genesis [AddBlock]: when the
    validator trains, the IPFS node answers the connection test and the
    genesis block is mined, but its store in IPFS fails, the call still
    returns no error, with a chain that has no block. *)
Theorem NewBlockchain_discards_genesis_error (fuel rounds : nat)
    (now difficulty : Z) (trainingFile : string) (w w1 w2 : World)
    (genesisBlock : Block) (e : error)
    (Htrain : Train trainingFile = None)
    (Hnode : shell_ID w = (None, w1))
    (Hmined : CreateBlock fuel now 0 [] "" difficulty
              = Mined genesisBlock rounds)
    (Hstore : StoreBlock genesisBlock w1 = (Err e, w2)) :
  NewBlockchain Train shell_ID fuel now difficulty trainingFile w
  = Built (Ok {| Blocks := []; ChainDifficulty := difficulty |}) w2.
Proof.
  unfold NewBlockchain, NewIPFSHandler.
  rewrite Htrain, Hnode, Hmined. unfold AddBlock.
  rewrite AddBlock_checks_empty by reflexivity. rewrite Hstore. reflexivity.
Qed.


End ChainStoreStart.

Lemma NewBlockchain_result_witness :
  NewBlockchain (lib := fixture) (fun _ => None) (fun w => (None, w))
    65 1700000000 1 "../transactions.csv" true
  = Built (Ok fixture_local) true /\
  IsValid (lib := fixture) fixture_local = Some true.
Proof.
  assert (H : NewBlockchain (lib := fixture) (fun _ => None)
                (fun w => (None, w)) 65 1700000000 1
                "../transactions.csv" true
              = Built (Ok fixture_local) true) by (vm_compute; reflexivity).
  split; [exact H|].
  apply (NewBlockchain_result (lib := fixture) _ _ _ _ _ _ _ _ _ H).
Defined.

Lemma NewBlockchain_discards_genesis_error_witness :
  CreateBlock (lib := fixture) 65 1700000000 0 [] "" 1
  = Mined fixture_genesis 65 /\
  StoreBlock (lib := fixture) fixture_genesis false
  = (Err ("failed to add block to IPFS: " ++ "node unreachable"), false) /\
  NewBlockchain (lib := fixture) (fun _ => None) (fun w => (None, w))
    65 1700000000 1 "../transactions.csv" false
  = Built (Ok {| Blocks := []; ChainDifficulty := 1 |}) false.
Proof.
  assert (H : CreateBlock (lib := fixture) 65 1700000000 0 [] "" 1
              = Mined fixture_genesis 65) by (vm_compute; reflexivity).
  split; [exact H|]. split; [reflexivity|].
  apply (NewBlockchain_discards_genesis_error (lib := fixture)
           (fun _ => None) (fun w => (None, w)) 65 65 1700000000 1
           "../transactions.csv" false false false fixture_genesis
           ("failed to add block to IPFS: " ++ "node unreachable")
           eq_refl eq_refl H eq_refl).
Defined.

(** ** network.go: sending *)

Lemma BroadcastMessage_elem (pn : PeerNetwork) (content : BlockchainMessage)
    (s : Send) :
  s ∈ BroadcastMessage pn content <->
  exists (addr : string) (peer : PeerConnection),
    Peers pn !! addr = Some peer /\ s = (Conn peer, content).
Proof.
  unfold BroadcastMessage. rewrite list_elem_of_fmap. split.
  - intros ([addr peer] & -> & Hin). apply elem_of_map_to_list in Hin.
    exists addr, peer. auto.
  - intros (addr & peer & Hl & ->). exists (addr, peer).
    split; [reflexivity|]. apply elem_of_map_to_list. exact Hl.
Qed.

(** [BroadcastMessage] makes one send per entry of the peer map, each of
    the given message to the connection of a peer, and every peer is sent
    to; with no peer nothing is sent. *)
Theorem BroadcastMessage_reaches_every_peer (pn : PeerNetwork)
    (content : BlockchainMessage) :
  length (BroadcastMessage pn content) = size (Peers pn) /\
  (forall (addr : string) (peer : PeerConnection),
     Peers pn !! addr = Some peer ->
     (Conn peer, content) ∈ BroadcastMessage pn content) /\
  (forall s : Send,
     s ∈ BroadcastMessage pn content ->
     snd s = content /\
     exists (addr : string) (peer : PeerConnection),
       Peers pn !! addr = Some peer /\ fst s = Conn peer) /\
  (Peers pn = ∅ -> BroadcastMessage pn content = []).
Proof.
  split; [|split; [|split]].
  - unfold BroadcastMessage. rewrite length_fmap.
    apply length_map_to_list.
  - intros addr peer Hl. apply BroadcastMessage_elem. eauto.
  - intros s Hs. apply BroadcastMessage_elem in Hs.
    destruct Hs as (addr & peer & Hl & ->). cbn. eauto.
  - intros Hempty. unfold BroadcastMessage. rewrite Hempty.
    rewrite map_to_list_empty. reflexivity.
Qed.

(** [SendToPeer] fails with the not-connected error for an address that
    was closed or never registered, and writes to the registered
    connection otherwise: after [handleConnection] on a free address it
    writes to the accepted connection. *)
Theorem SendToPeer_follows_registration (pn : PeerNetwork)
    (addr : string) (conn : nat) (content : BlockchainMessage) :
  SendToPeer (closeConnection pn addr) addr content
  = Err ("peer " ++ addr ++ " not connected") /\
  (Peers pn !! addr = None ->
   SendToPeer pn addr content = Err ("peer " ++ addr ++ " not connected") /\
   SendToPeer (handleConnection pn addr conn) addr content
   = Ok (conn, content)) /\
  (forall peer : PeerConnection,
     Peers pn !! addr = Some peer ->
     SendToPeer (handleConnection pn addr conn) addr content
     = Ok (Conn peer, content)).
Proof.
  split; [|split].
  - unfold SendToPeer, closeConnection. cbn [Peers set_Peers].
    rewrite lookup_delete_eq. reflexivity.
  - intros Hfree. unfold SendToPeer, handleConnection. rewrite Hfree.
    split; [reflexivity|]. cbn [Peers set_Peers].
    rewrite lookup_insert_eq. reflexivity.
  - intros peer Hpeer. unfold SendToPeer, handleConnection.
    rewrite Hpeer, Hpeer. reflexivity.
Qed.

(** ** network.go: the message handler *)

Section HandlerMore.

Context {lib : Library}.

(** [handleMessage] on a [NEW_BLOCK] message whose content holds a
    [*Block], with a chain set: when [AddBlock] succeeds the block is at
    the end of the chain and every peer connection is sent a [NEW_BLOCK]
    message from this node carrying it; when [AddBlock] fails nothing is
    sent and the network is unchanged. *)
Theorem handleMessage_new_block_floods (pn : PeerNetwork)
    (message : BlockchainMessage) (block : Block) (bc : Blockchain)
    (conn : nat) (w : World)
    (Hty : MsgType message = MessageTypeNewBlock)
    (Hcontent : Content message = DBlockPtr block)
    (Hbc : blockchain pn = Some bc) :
  (forall (bc' : Blockchain) (w' : World),
     AddBlock bc block w = Done (bc', None) w' ->
     handleMessage pn message conn w
     = Done (set_blockchain pn (Some bc'), BroadcastNewBlock pn block) w' /\
     GetLatestBlock bc' = Some block /\
     forall (addr : string) (peer : PeerConnection),
       Peers pn !! addr = Some peer ->
       (Conn peer,
        {| MsgType := MessageTypeNewBlock; Content := DBlockPtr block;
           From := MyAddress pn; To := "" |})
       ∈ BroadcastNewBlock pn block) /\
  (forall (bc' : Blockchain) (e : error) (w' : World),
     AddBlock bc block w = Done (bc', Some e) w' ->
     handleMessage pn message conn w = Done (pn, []) w').
Proof.
  assert (Hhandle : handleMessage pn message conn w =
    match AddBlock bc block w with
    | Panicked => Panicked
    | Done (bc', Some _) w' => Done (set_blockchain pn (Some bc'), []) w'
    | Done (bc', None) w' =>
        Done (set_blockchain pn (Some bc'), BroadcastNewBlock pn block) w'
    end).
  { unfold handleMessage. rewrite Hty, Hcontent, Hbc. reflexivity. }
  rewrite Hhandle. split.
  - intros bc' w' Hadd. rewrite Hadd. split; [reflexivity|]. split.
    + apply AddBlock_success in Hadd. destruct Hadd as [_ ->].
      unfold GetLatestBlock. cbn [Blocks set_Blocks]. apply last_snoc.
    + intros addr peer Hpeer. unfold BroadcastNewBlock.
      apply BroadcastMessage_elem. eauto.
  - intros bc' e w' Hadd. rewrite Hadd.
    apply AddBlock_error_keeps_chain in Hadd. subst bc'.
    rewrite (set_blockchain_same _ _ Hbc). reflexivity.
Qed.

(** [handleMessage] on a [BLOCKCHAIN_RESPONSE] message whose content
    holds a [*Blockchain]: with a local chain, the remote chain replaces
    it exactly when it has more blocks and passes [IsValid], and is not
    even validated when it has no more blocks; with no local chain, a
    remote chain that passes [IsValid] is adopted whatever its length.
    Nothing is sent. *)
Theorem handleMessage_chain_response_adoption (pn : PeerNetwork)
    (message : BlockchainMessage) (remote : Blockchain) (conn : nat)
    (w : World)
    (Hty : MsgType message = MessageTypeBlockchainResponse)
    (Hcontent : Content message = DBlockchainPtr remote) :
  (forall bc : Blockchain,
     blockchain pn = Some bc ->
     ((length (Blocks bc) < length (Blocks remote))%nat ->
      IsValid remote = Some true ->
      handleMessage pn message conn w
      = Done (set_blockchain pn (Some remote), []) w) /\
     ((length (Blocks bc) < length (Blocks remote))%nat ->
      IsValid remote = Some false ->
      handleMessage pn message conn w = Done (pn, []) w) /\
     ((length (Blocks remote) <= length (Blocks bc))%nat ->
      handleMessage pn message conn w = Done (pn, []) w)) /\
  (blockchain pn = None ->
   (IsValid remote = Some true ->
    handleMessage pn message conn w
    = Done (set_blockchain pn (Some remote), []) w) /\
   (IsValid remote = Some false ->
    handleMessage pn message conn w = Done (pn, []) w)).
Proof.
  unfold handleMessage. rewrite Hty, Hcontent. cbn [String.eqb].
  change (String.eqb MessageTypeBlockchainResponse MessageTypeNewBlock)
    with false.
  change (String.eqb MessageTypeBlockchainResponse MessageTypeNewTx)
    with false.
  change (String.eqb MessageTypeBlockchainResponse MessageTypeBlockchain)
    with false.
  change (String.eqb MessageTypeBlockchainResponse
            MessageTypeBlockchainResponse) with true.
  cbv iota. split.
  - intros bc ->. repeat split.
    + intros Hlt ->. apply Nat.ltb_lt in Hlt. rewrite Hlt. reflexivity.
    + intros Hlt ->. apply Nat.ltb_lt in Hlt. rewrite Hlt. reflexivity.
    + intros Hle. apply Nat.ltb_ge in Hle. rewrite Hle. reflexivity.
  - intros ->. split; intros ->; reflexivity.
Qed.

(** [handleMessage] changes nothing of the network but its chain: the
    node's address, the peer map and the connection flags are the same
    after every message. *)
Theorem handleMessage_keeps_peer_set (pn pn' : PeerNetwork)
    (message : BlockchainMessage) (conn : nat) (w w' : World)
    (sends : list Send)
    (Hcall : handleMessage pn message conn w = Done (pn', sends) w') :
  MyAddress pn' = MyAddress pn /\ Peers pn' = Peers pn /\
  isConnected pn' = isConnected pn.
Proof.
  unfold handleMessage in Hcall.
  repeat case_match; simplify_eq; auto.
Qed.

(** Every message [handleMessage] sends goes to the connection the
    request came from or to the connection of a registered peer, and
    carries this node's address as its sender. *)
Theorem handleMessage_sends_as_self (pn pn' : PeerNetwork)
    (message : BlockchainMessage) (conn : nat) (w w' : World)
    (sends : list Send)
    (Hcall : handleMessage pn message conn w = Done (pn', sends) w') :
  forall (c : nat) (m : BlockchainMessage),
    (c, m) ∈ sends ->
    From m = MyAddress pn /\
    (c = conn \/
     exists (addr : string) (peer : PeerConnection),
       Peers pn !! addr = Some peer /\ Conn peer = c).
Proof.
  intros c m Hin. unfold handleMessage in Hcall.
  repeat case_match; simplify_eq;
    try (inversion Hin; fail);
    try (unfold BroadcastNewBlock, BroadcastTransaction in Hin;
         apply BroadcastMessage_elem in Hin;
         destruct Hin as (addr & peer & Hpeer & [= -> ->]);
         cbn in Hpeer; split; [reflexivity | right; eauto]; fail).
  apply list_elem_of_singleton in Hin. injection Hin as -> ->. cbn. auto.
Qed.

(** [handleMessage] keeps the local chain valid: if the chain passes
    [IsValid] before a message is handled, the chain the network holds
    afterwards passes it as well, whatever the message. *)
Theorem handleMessage_keeps_chain_valid (pn pn' : PeerNetwork)
    (message : BlockchainMessage) (conn : nat) (w w' : World)
    (sends : list Send) (bc : Blockchain)
    (Hbc : blockchain pn = Some bc)
    (Hvalid : IsValid bc = Some true)
    (Hcall : handleMessage pn message conn w = Done (pn', sends) w') :
  exists bc' : Blockchain,
    blockchain pn' = Some bc' /\ IsValid bc' = Some true.
Proof.
  unfold handleMessage in Hcall. rewrite Hbc in Hcall.
  repeat case_match; simplify_eq; cbn [blockchain set_blockchain];
    try (exists bc; split; [first [exact Hbc | reflexivity] | exact Hvalid]);
    try (eexists; split; [reflexivity | eassumption]).
  - match goal with H : AddBlock _ _ _ = Done (_, Some _) _ |- _ =>
      apply AddBlock_error_keeps_chain in H; subst end.
    eexists; split; [reflexivity | exact Hvalid].
  - match goal with H : AddBlock _ _ _ = Done (_, None) _ |- _ =>
      apply AddBlock_success in H; destruct H as [Hacc ->] end.
    eexists; split; [reflexivity|].
    apply IsValid_true. apply IsValid_true in Hvalid.
    cbn [Blocks set_Blocks]. apply checkBlocks_snoc; assumption.
  - match goal with H : RestoreFromIPFS _ _ _ = Done _ _ |- _ =>
      apply RestoreFromIPFS_result in H;
      destruct H as [[_ ->]|(_ & blocks & _ & Hok & ->)] end.
    + eexists; split; [reflexivity | exact Hvalid].
    + eexists; split; [reflexivity|]. apply IsValid_true. exact Hok.
Qed.

End HandlerMore.

Lemma handleMessage_new_block_floods_witness :
  AddBlock (lib := fixture) fixture_local fixture_block1 true
  = Done (fixture_remote, None) true /\
  handleMessage (lib := fixture) fixture_network fixture_typed_new_block
    2 true
  = Done (set_blockchain fixture_network (Some fixture_remote),
          BroadcastNewBlock fixture_network fixture_block1) true /\
  handleMessage (lib := fixture) fixture_network fixture_typed_new_block
    2 false
  = Done (fixture_network, []) false.
Proof.
  assert (H : AddBlock (lib := fixture) fixture_local fixture_block1 true
              = Done (fixture_remote, None) true)
    by (vm_compute; reflexivity).
  split; [exact H|]. split.
  - apply (proj1 (handleMessage_new_block_floods (lib := fixture)
             fixture_network fixture_typed_new_block fixture_block1
             fixture_local 2%nat true eq_refl eq_refl eq_refl)
             fixture_remote true H).
  - apply (proj2 (handleMessage_new_block_floods (lib := fixture)
             fixture_network fixture_typed_new_block fixture_block1
             fixture_local 2%nat false eq_refl eq_refl eq_refl)
             fixture_local
             ("failed to store block in IPFS: "
              ++ "failed to add block to IPFS: node unreachable") false).
    vm_compute. reflexivity.
Defined.

Lemma handleMessage_chain_response_adoption_witness :
  handleMessage (lib := fixture) fixture_network fixture_typed_response
    2 true
  = Done (set_blockchain fixture_network (Some fixture_remote), []) true /\
  handleMessage (lib := fixture)
    (set_blockchain fixture_network (Some fixture_remote))
    fixture_typed_response 2 true
  = Done (set_blockchain fixture_network (Some fixture_remote), []) true.
Proof.
  split.
  - apply (proj1 (handleMessage_chain_response_adoption (lib := fixture)
             fixture_network fixture_typed_response fixture_remote 2%nat
             true eq_refl eq_refl) fixture_local eq_refl).
    + cbn. lia.
    + vm_compute. reflexivity.
  - apply (proj1 (handleMessage_chain_response_adoption (lib := fixture)
             (set_blockchain fixture_network (Some fixture_remote))
             fixture_typed_response fixture_remote 2%nat
             true eq_refl eq_refl) fixture_remote eq_refl).
    cbn. lia.
Defined.

Lemma fixture_backup_handled :
  handleMessage (lib := fixture) fixture_network
    (Decode (fixture_backup_message "QmChain")) 2 true
  = Done (set_blockchain fixture_network (Some fixture_remote), []) true.
Proof. vm_compute. reflexivity. Qed.

Lemma fixture_new_block_handled :
  handleMessage (lib := fixture) fixture_network fixture_typed_new_block
    2 true
  = Done (set_blockchain fixture_network (Some fixture_remote),
          BroadcastNewBlock fixture_network fixture_block1) true.
Proof. vm_compute. reflexivity. Qed.

Lemma handleMessage_keeps_peer_set_witness :
  handleMessage (lib := fixture) fixture_network
    (Decode (fixture_backup_message "QmChain")) 2 true
  = Done (set_blockchain fixture_network (Some fixture_remote), []) true /\
  Peers (set_blockchain fixture_network (Some fixture_remote))
  = Peers fixture_network.
Proof.
  split; [exact fixture_backup_handled|].
  apply (handleMessage_keeps_peer_set (lib := fixture) _ _ _ _ _ _ _
           fixture_backup_handled).
Defined.

Lemma handleMessage_sends_as_self_witness :
  handleMessage (lib := fixture) fixture_network fixture_typed_new_block
    2 true
  = Done (set_blockchain fixture_network (Some fixture_remote),
          BroadcastNewBlock fixture_network fixture_block1) true /\
  forall (c : nat) (m : BlockchainMessage),
    (c, m) ∈ BroadcastNewBlock fixture_network fixture_block1 ->
    From m = MyAddress fixture_network /\
    (c = 2%nat \/
     exists (addr : string) (peer : PeerConnection),
       Peers fixture_network !! addr = Some peer /\ Conn peer = c).
Proof.
  split; [exact fixture_new_block_handled|].
  apply (handleMessage_sends_as_self (lib := fixture) _ _ _ _ _ _ _
           fixture_new_block_handled).
Defined.

Lemma handleMessage_keeps_chain_valid_witness :
  blockchain fixture_network = Some fixture_local /\
  IsValid (lib := fixture) fixture_local = Some true /\
  exists bc' : Blockchain,
    blockchain (set_blockchain fixture_network (Some fixture_remote))
    = Some bc' /\
    IsValid (lib := fixture) bc' = Some true.
Proof.
  assert (Hv : IsValid (lib := fixture) fixture_local = Some true)
    by (vm_compute; reflexivity).
  split; [reflexivity|]. split; [exact Hv|].
  apply (handleMessage_keeps_chain_valid (lib := fixture) fixture_network
           _ _ _ _ _ _ fixture_local eq_refl Hv fixture_backup_handled).
Defined.

(** ** network.go: the peer set *)

(** [handleConnection] registers an accepted connection under its remote
    address when the address is free, keeps the network as it is when the
    address is taken, and touches no other address. *)
Theorem handleConnection_registers (pn : PeerNetwork) (addr : string)
    (conn : nat) :
  (Peers pn !! addr = None ->
   Peers (handleConnection pn addr conn) !! addr
   = Some {| Address := addr; Conn := conn |} /\
   IsConnected (handleConnection pn addr conn) addr = true) /\
  (forall peer : PeerConnection,
     Peers pn !! addr = Some peer -> handleConnection pn addr conn = pn) /\
  (forall other : string,
     other <> addr ->
     Peers (handleConnection pn addr conn) !! other = Peers pn !! other /\
     IsConnected (handleConnection pn addr conn) other
     = IsConnected pn other) /\
  blockchain (handleConnection pn addr conn) = blockchain pn.
Proof.
  unfold handleConnection, IsConnected.
  destruct (Peers pn !! addr) as [p|] eqn:Hp.
  - split; [discriminate|]. split; [reflexivity|]. auto.
  - cbn [Peers isConnected set_Peers blockchain]. split; [|split; [|split]].
    + intros _. rewrite !lookup_insert_eq. auto.
    + intros peer. discriminate.
    + intros other Hne. rewrite !lookup_insert_ne by congruence. auto.
    + reflexivity.
Qed.

(** The clean-up that ends a read loop removes the connection of that
    remote address and clears its flag, touching no other address; it
    does so even when the connection that ended was a second one from an
    address already registered, whose first connection stays open. *)
Theorem closeConnection_unregisters (pn : PeerNetwork) (addr : string) :
  Peers (closeConnection pn addr) !! addr = None /\
  IsConnected (closeConnection pn addr) addr = false /\
  (addr ∉ GetConnectedPeers (closeConnection pn addr)) /\
  (forall other : string,
     other <> addr ->
     Peers (closeConnection pn addr) !! other = Peers pn !! other /\
     IsConnected (closeConnection pn addr) other = IsConnected pn other) /\
  (forall (peer : PeerConnection) (second : nat),
     Peers pn !! addr = Some peer ->
     Peers (closeConnection (handleConnection pn addr second) addr) !! addr
     = None).
Proof.
  unfold closeConnection, IsConnected, GetConnectedPeers.
  cbn [Peers isConnected set_Peers]. split; [|split; [|split; [|split]]].
  - apply lookup_delete_eq.
  - rewrite lookup_insert_eq. reflexivity.
  - rewrite list_elem_of_fmap. intros ([a p] & -> & Hin).
    apply elem_of_map_to_list in Hin. cbn in Hin.
    rewrite lookup_delete_eq in Hin. discriminate.
  - intros other Hne. rewrite lookup_delete_ne by congruence.
    rewrite lookup_insert_ne by congruence. auto.
  - intros peer second Hpeer. apply lookup_delete_eq.
Qed.

(** [GetConnectedPeers] lists each address of the peer map once, and
    nothing else. *)
Theorem GetConnectedPeers_lists_peer_map (pn : PeerNetwork) :
  NoDup (GetConnectedPeers pn) /\
  length (GetConnectedPeers pn) = size (Peers pn) /\
  forall addr : string,
    addr ∈ GetConnectedPeers pn <-> is_Some (Peers pn !! addr).
Proof.
  unfold GetConnectedPeers. split; [|split].
  - apply NoDup_fst_map_to_list.
  - rewrite length_fmap. apply length_map_to_list.
  - intros addr. rewrite list_elem_of_fmap. split.
    + intros ([a p] & -> & Hin). apply elem_of_map_to_list in Hin.
      cbn. eauto.
    + intros [p Hp]. exists (addr, p). split; [reflexivity|].
      apply elem_of_map_to_list. exact Hp.
Qed.

Lemma flags_match_insert (pn : PeerNetwork) (addr : string)
    (peer : PeerConnection) :
  flags_match_peers pn ->
  flags_match_peers
    (set_Peers pn (<[addr := peer]> (Peers pn))
       (<[addr := true]> (isConnected pn))).
Proof.
  intros Hinv a. unfold IsConnected. cbn [Peers isConnected set_Peers].
  destruct (decide (a = addr)) as [->|Hne].
  - rewrite !lookup_insert_eq. cbn. split; eauto.
  - rewrite !lookup_insert_ne by congruence. apply Hinv.
Qed.

Lemma connectLoop_connected (pn pn' : PeerNetwork) (address : string)
    (maxRetries retryCount : Z) (dials : list (GoResult nat))
    (attempts n : nat) :
  connectLoop pn address maxRetries retryCount dials attempts
  = DialConnected pn' n ->
  exists conn : nat,
    pn' = set_Peers pn
            (<[address := {| Address := address; Conn := conn |}]>
               (Peers pn))
            (<[address := true]> (isConnected pn)).
Proof.
  revert retryCount attempts.
  induction dials as [|[conn|e] dials IH]; intros r a; cbn [connectLoop];
    destruct (default false (isConnected pn !! address));
    try discriminate.
  - intros [= <- <-]. eauto.
  - destruct (int64_wrap (r + 1) <=? maxRetries); [apply IH | discriminate].
Qed.

(** The peer-set operations keep the connection flags in step with the
    peer map: it holds of a new network and is kept by registering an
    accepted connection, by the clean-up of a read loop and by a dial
    that succeeds. *)
Theorem flags_match_peers_kept :
  (forall myAddress : string, flags_match_peers (NewPeerNetwork myAddress)) /\
  (forall (pn : PeerNetwork) (addr : string) (conn : nat),
     flags_match_peers pn ->
     flags_match_peers (handleConnection pn addr conn)) /\
  (forall (pn : PeerNetwork) (addr : string),
     flags_match_peers pn -> flags_match_peers (closeConnection pn addr)) /\
  (forall (pn pn' : PeerNetwork) (address : string) (maxRetries : Z)
          (dials : list (GoResult nat)) (n : nat),
     flags_match_peers pn ->
     connectLoop pn address maxRetries 0 dials 0 = DialConnected pn' n ->
     flags_match_peers pn').
Proof.
  split; [|split; [|split]].
  - intros a addr. unfold IsConnected. cbn. rewrite !lookup_empty. cbn.
    split; [discriminate | intros [x Hx]; discriminate].
  - intros pn addr conn Hinv. unfold handleConnection.
    destruct (Peers pn !! addr); [exact Hinv|].
    apply flags_match_insert. exact Hinv.
  - intros pn addr Hinv a. unfold closeConnection, IsConnected.
    cbn [Peers isConnected set_Peers].
    destruct (decide (a = addr)) as [->|Hne].
    + rewrite lookup_insert_eq, lookup_delete_eq. cbn.
      split; [discriminate | intros [x Hx]; discriminate].
    + rewrite lookup_insert_ne, lookup_delete_ne by congruence. apply Hinv.
  - intros pn pn' address maxRetries dials n Hinv Hc.
    apply connectLoop_connected in Hc. destruct Hc as [conn ->].
    apply flags_match_insert. exact Hinv.
Qed.

(** ** network.go: dialling and the read loop *)

Lemma int64_wrap_small (n : Z) :
  - 2 ^ 63 <= n < 2 ^ 63 -> int64_wrap n = n.
Proof.
  intros H. unfold int64_wrap. rewrite Z.mod_small; lia.
Qed.

Lemma connectLoop_failures (pn : PeerNetwork) (address : string)
    (maxRetries : Z) (errs : list error) (tail : list (GoResult nat))
    (retryCount : Z) (attempts : nat) :
  IsConnected pn address = false ->
  0 <= retryCount ->
  retryCount + Z.of_nat (length errs) <= maxRetries ->
  maxRetries < 2 ^ 63 - 1 ->
  connectLoop pn address maxRetries retryCount
    ((Err <$> errs) ++ tail) attempts
  = connectLoop pn address maxRetries
      (retryCount + Z.of_nat (length errs)) tail
      (attempts + length errs).
Proof.
  unfold IsConnected. intros Hflag. revert retryCount attempts.
  induction errs as [|e errs IH]; intros r a Hr Hle Hmax.
  - cbn. rewrite Z.add_0_r, Nat.add_0_r. reflexivity.
  - cbn [fmap list_fmap app connectLoop length] in *.
    rewrite Hflag. rewrite int64_wrap_small by lia.
    destruct (Z.leb_spec (r + 1) maxRetries) as [_|Hgt]; [|lia].
    rewrite IH by lia. f_equal; lia.
Qed.

(** The dialling goroutine gives up after [maxRetries + 1] failed dials
    (after the first failure when [maxRetries] is negative): it makes
    that many attempts and no more, whatever later dials would return. *)
Theorem connectLoop_gives_up (pn : PeerNetwork) (address : string)
    (maxRetries : Z) (errs : list error) (e : error)
    (rest : list (GoResult nat))
    (Hflag : IsConnected pn address = false)
    (Hmax : maxRetries < 2 ^ 63 - 1)
    (Hfailed : length errs = Z.to_nat maxRetries) :
  connectLoop pn address maxRetries 0 ((Err <$> errs) ++ Err e :: rest) 0
  = DialGaveUp (S (length errs)).
Proof.
  destruct (Z_lt_le_dec maxRetries 0) as [Hneg|Hpos].
  - assert (Hnone : length errs = 0%nat) by lia.
    destruct errs; [|discriminate]. cbn [fmap list_fmap app connectLoop].
    unfold IsConnected in Hflag. rewrite Hflag.
    rewrite int64_wrap_small by lia.
    destruct (Z.leb_spec (0 + 1) maxRetries); [lia | reflexivity].
  - rewrite connectLoop_failures by (try assumption; lia).
    cbn [connectLoop]. unfold IsConnected in Hflag. rewrite Hflag.
    rewrite int64_wrap_small by lia.
    destruct (Z.leb_spec (0 + Z.of_nat (length errs) + 1) maxRetries);
      [lia | reflexivity].
Qed.

(** A dial that succeeds after at most [maxRetries] failures registers
    the connection under the configured address and ends the goroutine;
    while the address is flagged as connected the goroutine does not dial
    at all. *)
Theorem connectLoop_connects (pn : PeerNetwork) (address : string)
    (maxRetries : Z) (errs : list error) (conn : nat)
    (rest : list (GoResult nat))
    (Hflag : IsConnected pn address = false)
    (Hmax : maxRetries < 2 ^ 63 - 1)
    (Hfailed : (length errs <= Z.to_nat maxRetries)%nat) :
  connectLoop pn address maxRetries 0 ((Err <$> errs) ++ Ok conn :: rest) 0
  = DialConnected
      (set_Peers pn
         (<[address := {| Address := address; Conn := conn |}]> (Peers pn))
         (<[address := true]> (isConnected pn)))
      (S (length errs)) /\
  forall (dials : list (GoResult nat)),
    connectLoop
      (set_Peers pn
         (<[address := {| Address := address; Conn := conn |}]> (Peers pn))
         (<[address := true]> (isConnected pn)))
      address maxRetries 0 dials 0
    = DialWaiting 0.
Proof.
  split.
  - destruct errs as [|e0 errs].
    + cbn [fmap list_fmap app connectLoop length].
      unfold IsConnected in Hflag. rewrite Hflag. reflexivity.
    + assert (0 < maxRetries) by (cbn [length] in Hfailed; lia).
      rewrite connectLoop_failures by (try assumption; lia).
      cbn [connectLoop]. unfold IsConnected in Hflag. rewrite Hflag.
      reflexivity.
  - intros dials. destruct dials as [|d dials]; cbn [connectLoop];
      cbn [isConnected set_Peers]; rewrite lookup_insert_eq; reflexivity.
Qed.

Section ReadLoopFacts.

Context {lib : Library}.

Lemma receive_keeps_peer_set (pn pn' : PeerNetwork) (m : WireMessage)
    (conn : nat) (w w' : World) (sends : list Send) :
  receive pn m conn w = Done (pn', sends) w' ->
  Peers pn' = Peers pn /\ isConnected pn' = isConnected pn.
Proof.
  unfold receive, handleMessage. intros Hcall.
  repeat case_match; simplify_eq; auto.
Qed.


(** A connection on which only [NEW_BLOCK], [NEW_TRANSACTION] and
    [BLOCKCHAIN_RESPONSE] messages arrive has no effect at all: whatever
    they carry, nothing is appended, adopted or sent. *)
Theorem handleMessages_ignores_struct_payloads (pn : PeerNetwork)
    (ms : list WireMessage) (conn : nat) (addr : string) (w : World)
    (Hkinds : Forall struct_payload_kind ms) :
  handleMessages pn (Ok <$> ms) conn addr w = Done (pn, [], false) w.
Proof.
  induction Hkinds as [|m ms Hm _ IH]; [reflexivity|].
  cbn [fmap list_fmap handleMessages].
  rewrite (receive_struct_payload_ignored pn m conn w Hm).
  change (list_fmap WireMessage (GoResult WireMessage) Ok ms)
    with (Ok <$> ms).
  rewrite IH. reflexivity.
Qed.

End ReadLoopFacts.

Lemma connectLoop_gives_up_witness :
  connectLoop (NewPeerNetwork "localhost:9001") "localhost:9002" 3 0
    ((Err <$> ["refused"; "refused"; "refused"])
       ++ Err "refused" :: [Ok 7%nat]) 0
  = DialGaveUp 4.
Proof.
  apply (connectLoop_gives_up (NewPeerNetwork "localhost:9001")
           "localhost:9002" 3 ["refused"; "refused"; "refused"] "refused"
           [Ok 7%nat]).
  - reflexivity.
  - lia.
  - reflexivity.
Defined.

Lemma connectLoop_connects_witness :
  connectLoop (NewPeerNetwork "localhost:9001") "localhost:9002" 3 0
    ((Err <$> ["refused"; "refused"]) ++ Ok 7%nat :: []) 0
  = DialConnected
      (set_Peers (NewPeerNetwork "localhost:9001")
         (<["localhost:9002" :=
              {| Address := "localhost:9002"; Conn := 7%nat |}]>
            (Peers (NewPeerNetwork "localhost:9001")))
         (<["localhost:9002" := true]>
            (isConnected (NewPeerNetwork "localhost:9001"))))
      3.
Proof.
  apply (proj1 (connectLoop_connects (NewPeerNetwork "localhost:9001")
                  "localhost:9002" 3 ["refused"; "refused"] 7%nat []
                  eq_refl ltac:(lia) ltac:(cbn; lia))).
Defined.

Lemma handleMessages_ignores_struct_payloads_witness :
  Forall struct_payload_kind
    [fixture_new_block_message; fixture_chain_response] /\
  handleMessages (lib := fixture) fixture_network
    (Ok <$> [fixture_new_block_message; fixture_chain_response])
    2 "localhost:9002" true
  = Done (fixture_network, [], false) true.
Proof.
  assert (H : Forall struct_payload_kind
                [fixture_new_block_message; fixture_chain_response]).
  { apply Forall_cons. split; [left; reflexivity|].
    apply Forall_cons. split; [right; right; reflexivity|].
    apply Forall_nil_2. }
  split; [exact H|].
  apply (handleMessages_ignores_struct_payloads (lib := fixture)
           fixture_network _ 2%nat "localhost:9002" true H).
Defined.

(** ** common.go *)

Section CSVFacts.

Variable strconv_ParseFloat : string -> GoResult float64.

Lemma readRecords_Ok (lineNum : Z) (records : list (list string))
    (acc txs : list Transaction) :
  readRecords strconv_ParseFloat lineNum records acc = Ok txs ->
  exists new : list Transaction,
    txs = (acc ++ new)%list /\ length new = length records /\
    forall (i : nat) (tx : Transaction),
      new !! i = Some tx ->
      TxTimestamp tx = 0 /\
      exists amountField : string,
        records !! i = Some [Sender tx; Receiver tx; amountField] /\
        strconv_ParseFloat amountField = Ok (Amount tx).
Proof.
  revert lineNum acc.
  induction records as [|record records IH]; intros n acc.
  - cbn. intros [= <-]. exists []. rewrite app_nil_r.
    split; [reflexivity|]. split; [reflexivity|]. intros i tx. discriminate.
  - cbn [readRecords].
    destruct record as [|sender [|receiver [|amountField [|x record]]]];
      try discriminate.
    destruct (strconv_ParseFloat amountField) as [amount|e] eqn:Hparse;
      [|discriminate].
    intros H. apply IH in H. destruct H as (new & -> & Hlen & Hall).
    exists ({| Sender := sender; Receiver := receiver; Amount := amount;
               TxTimestamp := 0 |} :: new).
    rewrite <- app_assoc. split; [reflexivity|].
    split; [cbn; lia|].
    intros [|i] tx Hi.
    + injection Hi as <-. cbn. eauto.
    + apply (Hall i tx Hi).
Qed.

(** What [ReadTransactionsFromCSV] returns without an error: the file
    opened, its first record was the header [Sender,Receiver,Amount], and
    the result has one transaction per record read after it, in order, at
    least five of them, each with the sender and receiver of its record,
    the amount parsed from the third field and a zero timestamp. *)
Theorem ReadTransactionsFromCSV_success (opened : option error)
    (header : GoResult (list string)) (records : list (list string))
    (txs : list Transaction)
    (Hread : ReadTransactionsFromCSV strconv_ParseFloat opened header records
             = Ok txs) :
  opened = None /\ header = Ok ["Sender"; "Receiver"; "Amount"] /\
  length txs = length records /\ (5 <= length txs)%nat /\
  forall (i : nat) (tx : Transaction),
    txs !! i = Some tx ->
    TxTimestamp tx = 0 /\
    exists amountField : string,
      records !! i = Some [Sender tx; Receiver tx; amountField] /\
      strconv_ParseFloat amountField = Ok (Amount tx).
Proof.
  unfold ReadTransactionsFromCSV in Hread.
  destruct opened; [discriminate|].
  destruct header as [[|h0 [|h1 [|h2 [|h3 h]]]]|e]; try discriminate.
  destruct (String.eqb_spec h0 "Sender") as [->|]; [|discriminate].
  destruct (String.eqb_spec h1 "Receiver") as [->|]; [|discriminate].
  destruct (String.eqb_spec h2 "Amount") as [->|]; [|discriminate].
  cbn [negb orb] in Hread.
  destruct (readRecords strconv_ParseFloat 1 records []) as [ts|e] eqn:Hrec;
    [|discriminate].
  destruct (Nat.ltb_spec (length ts) 5) as [Hlt|Hge]; [discriminate|].
  injection Hread as ->.
  apply readRecords_Ok in Hrec. destruct Hrec as (new & Heq & Hlen & Hall).
  cbn in Heq. subst new.
  split; [reflexivity|]. split; [reflexivity|]. split; [exact Hlen|].
  split; [exact Hge | exact Hall].
Qed.

Lemma readRecords_bad_amount (lineNum : Z) (good rest : list (list string))
    (acc : list Transaction) (sender receiver amountField : string)
    (e : error) :
  Forall (fun record =>
            exists (s r a : string) (amount : float64),
              record = [s; r; a] /\ strconv_ParseFloat a = Ok amount)
    good ->
  strconv_ParseFloat amountField = Err e ->
  readRecords strconv_ParseFloat lineNum
    (good ++ [sender; receiver; amountField] :: rest) acc
  = Err ("invalid amount at line "
         ++ pretty (lineNum + Z.of_nat (length good) + 1) ++ ": " ++ e).
Proof.
  intros Hgood Hbad. revert lineNum acc.
  induction Hgood as [|record good (s & r & a & amount & -> & Hp) _ IH];
    intros n acc.
  - cbn [app readRecords length]. rewrite Hbad.
    replace (n + Z.of_nat 0 + 1) with (n + 1) by lia. reflexivity.
  - cbn [app readRecords length]. rewrite Hp, IH.
    replace (n + 1 + Z.of_nat (length good) + 1)
      with (n + Z.of_nat (S (length good)) + 1) by lia.
    reflexivity.
Qed.

(** An amount that does not parse is reported with the line it is on,
    the header being line 1, and no transaction is returned, however many
    good records come before or after it. *)
Theorem ReadTransactionsFromCSV_reports_line (good rest : list (list string))
    (sender receiver amountField : string) (e : error)
    (Hgood : Forall (fun record =>
               exists (s r a : string) (amount : float64),
                 record = [s; r; a] /\ strconv_ParseFloat a = Ok amount)
               good)
    (Hbad : strconv_ParseFloat amountField = Err e) :
  ReadTransactionsFromCSV strconv_ParseFloat None
    (Ok ["Sender"; "Receiver"; "Amount"])
    (good ++ [sender; receiver; amountField] :: rest)
  = Err ("invalid amount at line "
         ++ pretty (Z.of_nat (length good) + 2) ++ ": " ++ e).
Proof.
  unfold ReadTransactionsFromCSV.
  rewrite (readRecords_bad_amount 1 good rest [] sender receiver
             amountField e Hgood Hbad).
  replace (1 + Z.of_nat (length good) + 1)
    with (Z.of_nat (length good) + 2) by lia.
  reflexivity.
Qed.

End CSVFacts.

Lemma ReadTransactionsFromCSV_success_witness :
  ReadTransactionsFromCSV fixture_ParseFloat None
    (Ok ["Sender"; "Receiver"; "Amount"]) fixture_records
  = Ok [{| Sender := "Alice"; Receiver := "Bob";
           Amount := Amount fixture_transfer; TxTimestamp := 0 |};
        {| Sender := "Bob"; Receiver := "Carol";
           Amount := Amount fixture_small_transfer; TxTimestamp := 0 |};
        {| Sender := "Carol"; Receiver := "Dave";
           Amount := Amount fixture_transfer; TxTimestamp := 0 |};
        {| Sender := "Dave"; Receiver := "Erin";
           Amount := Amount fixture_small_transfer; TxTimestamp := 0 |};
        {| Sender := "Erin"; Receiver := "Alice";
           Amount := Amount fixture_transfer; TxTimestamp := 0 |}] /\
  length fixture_records = 5%nat.
Proof.
  split; [vm_compute; reflexivity|].
  assert (H : ReadTransactionsFromCSV fixture_ParseFloat None
                (Ok ["Sender"; "Receiver"; "Amount"]) fixture_records
              = Ok [{| Sender := "Alice"; Receiver := "Bob";
                       Amount := Amount fixture_transfer;
                       TxTimestamp := 0 |};
                    {| Sender := "Bob"; Receiver := "Carol";
                       Amount := Amount fixture_small_transfer;
                       TxTimestamp := 0 |};
                    {| Sender := "Carol"; Receiver := "Dave";
                       Amount := Amount fixture_transfer;
                       TxTimestamp := 0 |};
                    {| Sender := "Dave"; Receiver := "Erin";
                       Amount := Amount fixture_small_transfer;
                       TxTimestamp := 0 |};
                    {| Sender := "Erin"; Receiver := "Alice";
                       Amount := Amount fixture_transfer;
                       TxTimestamp := 0 |}])
    by (vm_compute; reflexivity).
  symmetry.
  apply (proj1 (proj2 (proj2 (ReadTransactionsFromCSV_success
                                fixture_ParseFloat _ _ _ _ H)))).
Defined.

Lemma ReadTransactionsFromCSV_reports_line_witness :
  ReadTransactionsFromCSV fixture_ParseFloat None
    (Ok ["Sender"; "Receiver"; "Amount"])
    ([["Alice"; "Bob"; "500"]; ["Bob"; "Carol"; "300"]]
       ++ ["Carol"; "Dave"; "a lot"] :: [["Dave"; "Erin"; "300"]])
  = Err ("invalid amount at line " ++ pretty (Z.of_nat 2 + 2) ++ ": "
         ++ "strconv.ParseFloat: parsing: invalid syntax").
Proof.
  apply (ReadTransactionsFromCSV_reports_line fixture_ParseFloat
           [["Alice"; "Bob"; "500"]; ["Bob"; "Carol"; "300"]]
           [["Dave"; "Erin"; "300"]] "Carol" "Dave" "a lot").
  - repeat constructor.
    + exists "Alice", "Bob", "500". eexists. split; reflexivity.
    + exists "Bob", "Carol", "300". eexists. split; reflexivity.
  - reflexivity.
Defined.

(** ** Backup and restore *)

Section BackupRestore.

Context {lib : Library}.

Variable json_Marshal_Blocks : list Block -> GoResult (list Byte.byte).

(** Round trip through the backup store.  If the node returns a blob that
    was added and pinned under the id it was given, and [json.Unmarshal]
    reads the chain back from what [json.Marshal] wrote for it, then a
    valid chain backed up by [BackupToIPFS] is installed, block for block,
    by [RestoreFromIPFS] of the returned id, on any node of the
    network. *)
Theorem BackupToIPFS_then_RestoreFromIPFS (bc peer : Blockchain)
    (hash : string) (w w' : World)
    (Hnode : forall (data : list Byte.byte) (h : string) (w0 w1 w2 : World),
        shell_Add data w0 = (Ok h, w1) ->
        shell_Pin h w1 = (None, w2) ->
        shell_Cat h w2 = (Ok (Ok data), w2))
    (Hjson : forall data : list Byte.byte,
        json_Marshal_Blocks (Blocks bc) = Ok data ->
        json_Unmarshal_Blocks data = Ok (Blocks bc))
    (Hvalid : IsValid bc = Some true)
    (Hbackup : BackupToIPFS json_Marshal_Blocks bc w = (Ok hash, w')) :
  RestoreFromIPFS peer hash w'
  = Done (set_Blocks peer (Blocks bc), None) w' /\
  IsValid (set_Blocks peer (Blocks bc)) = Some true.
Proof.
  unfold BackupToIPFS, StoreBlockchain in Hbackup.
  destruct (json_Marshal_Blocks (Blocks bc)) as [data|e] eqn:Hm;
    [|discriminate].
  destruct (shell_Add data w) as [[h|e] w1] eqn:Hadd; [|discriminate].
  destruct (shell_Pin h w1) as [[e|] w2] eqn:Hpin; [discriminate|].
  injection Hbackup as -> ->.
  pose proof (Hnode _ _ _ _ _ Hadd Hpin) as Hcat.
  pose proof (Hjson _ eq_refl) as Hun.
  apply IsValid_true in Hvalid.
  split.
  - unfold RestoreFromIPFS, RetrieveBlockchain.
    rewrite Hcat, Hun, Hvalid. reflexivity.
  - apply IsValid_true. exact Hvalid.
Qed.

End BackupRestore.

Lemma BackupToIPFS_then_RestoreFromIPFS_witness :
  BackupToIPFS (lib := fixture_memory) fixture_Marshal_Blocks
    fixture_remote ∅
  = (Ok (fixture_content_id [Byte.x01]),
     {[ fixture_content_id [Byte.x01] := [Byte.x01] ]}) /\
  RestoreFromIPFS (lib := fixture_memory) fixture_local
    (fixture_content_id [Byte.x01])
    {[ fixture_content_id [Byte.x01] := [Byte.x01] ]}
  = Done (set_Blocks fixture_local (Blocks fixture_remote), None)
      {[ fixture_content_id [Byte.x01] := [Byte.x01] ]}.
Proof.
  assert (Hb : BackupToIPFS (lib := fixture_memory) fixture_Marshal_Blocks
                 fixture_remote ∅
               = (Ok (fixture_content_id [Byte.x01]),
                  {[ fixture_content_id [Byte.x01] := [Byte.x01] ]})).
  { unfold BackupToIPFS, StoreBlockchain. cbn.
    rewrite lookup_insert_eq. reflexivity. }
  split; [exact Hb|].
  assert (Hnode : forall (data : list Byte.byte) (h : string)
                    (w0 w1 w2 : World (Library := fixture_memory)),
             shell_Add (Library := fixture_memory) data w0 = (Ok h, w1) ->
             shell_Pin (Library := fixture_memory) h w1 = (None, w2) ->
             shell_Cat (Library := fixture_memory) h w2
             = (Ok (Ok data), w2)).
  { intros data h w0 w1 w2. cbn. intros [= <- <-].
    rewrite lookup_insert_eq. intros [= <-].
    rewrite lookup_insert_eq. reflexivity. }
  assert (Hjson : forall data : list Byte.byte,
             fixture_Marshal_Blocks (Blocks fixture_remote) = Ok data ->
             json_Unmarshal_Blocks (Library := fixture_memory) data
             = Ok (Blocks fixture_remote)).
  { intros data. cbn. intros [= <-]. reflexivity. }
  assert (Hvalid : IsValid (lib := fixture_memory) fixture_remote
                   = Some true) by (vm_compute; reflexivity).
  apply (proj1 (BackupToIPFS_then_RestoreFromIPFS (lib := fixture_memory)
                  fixture_Marshal_Blocks fixture_remote fixture_local
                  _ _ _ Hnode Hjson Hvalid Hb)).
Defined.
